(** * cpp-d4: the BLAS/LAPACK dispatch layer of [include/dftd_cblas.h]

    A shallow embedding of the three wrappers

      - [BLAS_Add_Mat_x_Vec]  (gemv),
      - [BLAS_Add_Mat_x_Mat]  (gemm),
      - [BLAS_InvertMatrix]   (invert),

    each of which exists in two variants chosen by the preprocessor symbol
    [DFTD4_USE_EIGEN].  The wrappers work on caller-owned buffers through
    raw pointers, so the embedding threads an explicit machine state: a heap
    of [double] buffers, a heap of [lapack_int] arrays obtained from
    [new[]], and the log of the numerical-library calls issued so far. *)

From Stdlib Require Import ZArith Floats Lia.
From stdpp Require Import base option list gmap.

(** ** Exit codes of [<cstdlib>] *)

Definition EXIT_SUCCESS : Z := 0.
Definition EXIT_FAILURE : Z := 1.

(** ** Storage types *)

(** An address: the value of a [double*] or [lapack_int*].  Every buffer is
    a block of its own, and an index beyond the end of a block is not an
    element of any other block. *)
Definition loc := positive.

Module TMatrix.
(** Modelled from the spec: [dftd_matrix.h], which declares
    [TMatrix<double>], is not among the sources.  The wrappers read the
    members [rows], [cols] and [p] only: row count, column count and a
    pointer to [rows * cols] contiguous doubles in row-major order. *)
Record t := mk { rows : nat; cols : nat; p : loc }.
End TMatrix.

Module TVector.
(** Modelled from the spec: [dftd_matrix.h], which declares
    [TVector<double>], is not among the sources.  The wrappers read the
    members [N] and [p] only: the length and a pointer to [N] contiguous
    doubles. *)
Record t := mk { N : nat; p : loc }.
End TVector.

(** ** Machine state *)

(** The calls into the numerical libraries that the wrappers can issue. *)
Inductive kernel_call :=
| call_cblas_dgemv
| call_cblas_dgemm
| call_LAPACKE_dgetrf
| call_LAPACKE_dgetri
| call_eigen_product
| call_eigen_inverse.

Record machine := Machine {
  heap : gmap loc (list float);     (* the double buffers *)
  arrays : gmap loc (list Z);       (* live [new lapack_int[n]] arrays *)
  calls : list kernel_call          (* library calls, oldest first *)
}.

(** What a call of a library routine outside its contract can run into. *)
Inductive fault :=
| OutOfBounds (l : loc) (i : nat)   (* element [i] of block [l] does not exist *)
| SizeAssert                        (* an Eigen size assertion does not hold *)
| IllegalArgument (arg : nat).      (* argument number [arg] is refused by the
                                       routine's test of its arguments *)

Inductive res (A : Type) :=
| Ok (a : A)
| Err (f : fault).
Arguments Ok {A} a.
Arguments Err {A} f.

#[global] Instance res_ret : MRet res := λ A a, Ok a.
#[global] Instance res_bind : MBind res := λ A B k r,
  match r with
  | Ok a => k a
  | Err f => Err f
  end.

(** How a call of a wrapper ends. *)
Inductive outcome :=
| Returned (rc : Z) (m : machine)     (* [return rc;] *)
| Exited (status : Z) (m : machine)   (* [exit(status);]: the process ends *)
| Undefined (f : fault).              (* a library routine was called outside
                                         its contract and ran into [f] *)

(** ** Element access *)

Definition load (h : gmap loc (list float)) (l : loc) (i : nat) : res float :=
  match h !! l with
  | Some b =>
      match b !! i with
      | Some x => Ok x
      | None => Err (OutOfBounds l i)
      end
  | None => Err (OutOfBounds l i)
  end.

Definition store (h : gmap loc (list float)) (l : loc) (i : nat) (x : float)
  : res (gmap loc (list float)) :=
  match h !! l with
  | Some b =>
      if decide (i < length b) then Ok (<[l := <[i := x]> b]> h)
      else Err (OutOfBounds l i)
  | None => Err (OutOfBounds l i)
  end.

(** [for (i = 0; i < n; ++i) s = body(i, s);] *)
Fixpoint for_upto {T : Type} (n : nat) (body : nat → T → res T) (s : T) : res T :=
  match n with
  | O => Ok s
  | S k => s' ← for_upto k body s; body k s'
  end.

(** ** The multiply-accumulate kernel shared by both libraries

    Both libraries are external to the repository.  Their multiply routines
    are modelled by the contract they document,
    [C ← alpha * op(A) * op(B) + beta * C], entry by entry, with the inner
    product accumulated from index 0 upwards.  The addressing of the three
    operands is left to the caller of [muladd], which is where the two
    libraries differ.  The operands [A] and [B] are read as they are when
    the routine is called.

    Two things are fixed by this kernel and by no library: the order in
    which the terms of an entry are rounded, which varies with the routine
    and the build, and the element at which a call on too short an operand
    is stopped.  An operand has to hold every element its dimensions
    declare; a call on a shorter one is outside the routine's contract
    whether or not the routine gets to touch the missing element, and
    [muladd] reports the first missing element in its own order of
    access. *)

(** [sum_{k < n} A[ia k] * B[ib k]] *)
Fixpoint dot (h : gmap loc (list float)) (A : loc) (ia : nat → nat)
    (B : loc) (ib : nat → nat) (n : nat) : res float :=
  match n with
  | O => Ok 0%float
  | S k =>
      acc ← dot h A ia B ib k;
      a ← load h A (ia k);
      b ← load h B (ib k);
      Ok (acc + a * b)%float
  end.

(** [beta * c], with the reference implementation's shortcut for [beta = 1]. *)
Definition scal (beta c : float) : float :=
  if PrimFloat.eqb beta 1 then c else (beta * c)%float.

Definition muladd (M N K : nat) (alpha : float)
    (A : loc) (ia : nat → nat → nat) (B : loc) (ib : nat → nat → nat)
    (beta : float) (C : loc) (ic : nat → nat → nat)
    (h : gmap loc (list float)) : res (gmap loc (list float)) :=
  for_upto M (λ i, for_upto N (λ j hj,
    d ← dot h A (ia i) B (λ k, ib k j) K;
    c ← load hj C (ic i j);
    store hj C (ic i j) (scal beta c + alpha * d)%float)) h.

(** ** CBLAS *)

Inductive CBLAS_ORDER := CblasRowMajor | CblasColMajor.
Inductive CBLAS_TRANSPOSE := CblasNoTrans | CblasTrans.

(** Offset of the stored element in row [r], column [c] of a matrix with
    leading dimension [ld]. *)
Definition offset (o : CBLAS_ORDER) (ld r c : nat) : nat :=
  match o with
  | CblasRowMajor => r * ld + c
  | CblasColMajor => r + c * ld
  end.

(** Offset of element [(i, k)] of [op(A)]. *)
Definition op_offset (o : CBLAS_ORDER) (t : CBLAS_TRANSPOSE) (ld i k : nat) : nat :=
  match t with
  | CblasNoTrans => offset o ld i k
  | CblasTrans => offset o ld k i
  end.

(** The number of elements between two rows (row-major) or two columns
    (column-major) of a matrix stored as [r] by [c]: what its leading
    dimension has to reach. *)
Definition stride (o : CBLAS_ORDER) (r c : nat) : nat :=
  match o with
  | CblasRowMajor => c
  | CblasColMajor => r
  end.

(** The course of a routine of the reference implementation.  The
    arguments are tested first, and the first one refused, if there is one,
    is handed to the error handler [xerbla]: what the handler does (the
    reference one ends the process, others print and return) is up to the
    library, so such a call is outside the contract.  The operands then
    have to hold the elements their dimensions declare, which is what
    running [kernel] finds out.  Inside the contract the routine returns at
    once, leaving every buffer as it is, when [quick] holds. *)
Definition routine (refused : option nat) (quick : bool)
    (kernel : gmap loc (list float) → res (gmap loc (list float)))
    (h : gmap loc (list float)) : res (gmap loc (list float)) :=
  match refused with
  | Some arg => Err (IllegalArgument arg)
  | None => h' ← kernel h; Ok (if quick then h else h')
  end.

(** [cblas_dgemv(order, TransA, M, N, alpha, A, lda, X, incX, beta, Y, incY)]:
    [A] is stored as [M] by [N]; [Y ← alpha * op(A) * X + beta * Y].  Without
    transposition [X] has [N] and [Y] has [M] elements, with transposition
    [X] has [M] and [Y] has [N] elements.  The routine asks for
    [lda >= max(1, N)] in row-major order ([max(1, M)] in column-major
    order) and for increments other than 0, and returns at once when
    [M = 0], [N = 0], or [alpha = 0] and [beta = 1]. *)
Definition cblas_dgemv (order : CBLAS_ORDER) (TransA : CBLAS_TRANSPOSE)
    (M N : nat) (alpha : float) (A : loc) (lda : nat)
    (X : loc) (incX : nat) (beta : float) (Y : loc) (incY : nat)
    (h : gmap loc (list float)) : res (gmap loc (list float)) :=
  let lenX := match TransA with CblasNoTrans => N | CblasTrans => M end in
  let lenY := match TransA with CblasNoTrans => M | CblasTrans => N end in
  routine
    (if lda <? Nat.max 1 (stride order M N) then Some 7
     else if incX =? 0 then Some 9
     else if incY =? 0 then Some 12
     else None)
    ((M =? 0) || (N =? 0) || (PrimFloat.eqb alpha 0 && PrimFloat.eqb beta 1))
    (muladd lenY 1 lenX alpha
       A (op_offset order TransA lda)
       X (λ k _, k * incX)
       beta Y (λ i _, i * incY)) h.

(** [cblas_dgemm(order, TransA, TransB, M, N, K, alpha, A, lda, B, ldb, beta,
    C, ldc)]: [C ← alpha * op(A) * op(B) + beta * C] with [op(A)] of shape
    [M] by [K], [op(B)] of shape [K] by [N] and [C] of shape [M] by [N].
    Each leading dimension has to reach the stride of its matrix as stored,
    and 1; the routine returns at once when [M = 0], [N = 0], or
    [alpha = 0] or [K = 0] and [beta = 1]. *)
Definition cblas_dgemm (order : CBLAS_ORDER) (TransA TransB : CBLAS_TRANSPOSE)
    (M N K : nat) (alpha : float) (A : loc) (lda : nat)
    (B : loc) (ldb : nat) (beta : float) (C : loc) (ldc : nat)
    (h : gmap loc (list float)) : res (gmap loc (list float)) :=
  let strideA := match TransA with
                 | CblasNoTrans => stride order M K
                 | CblasTrans => stride order K M
                 end in
  let strideB := match TransB with
                 | CblasNoTrans => stride order K N
                 | CblasTrans => stride order N K
                 end in
  routine
    (if lda <? Nat.max 1 strideA then Some 9
     else if ldb <? Nat.max 1 strideB then Some 11
     else if ldc <? Nat.max 1 (stride order M N) then Some 14
     else None)
    ((M =? 0) || (N =? 0)
     || ((PrimFloat.eqb alpha 0 || (K =? 0)) && PrimFloat.eqb beta 1))
    (muladd M N K alpha
       A (op_offset order TransA lda)
       B (op_offset order TransB ldb)
       beta C (offset order ldc)) h.

Arguments routine : simpl never.
Arguments cblas_dgemv : simpl never.
Arguments cblas_dgemm : simpl never.

(** ** Eigen *)

Module Eigen.
(** [Eigen::Map<Eigen::MatrixXd>(data, rows, cols)]: a view of [rows * cols]
    doubles in Eigen's default, column-major, storage order;
    [Eigen::Map<Eigen::VectorXd>(data, n)] is the view with one column.
    [transposed] records a pending [.transpose()]. *)
Record Map := mk { data : loc; stored_rows : nat; stored_cols : nat; transposed : bool }.

Definition MatrixXd (data : loc) (rows cols : nat) : Map := mk data rows cols false.
Definition VectorXd (data : loc) (n : nat) : Map := mk data n 1 false.

Definition transpose (v : Map) : Map :=
  mk (data v) (stored_rows v) (stored_cols v) (negb (transposed v)).

Definition rows (v : Map) : nat := if transposed v then stored_cols v else stored_rows v.
Definition cols (v : Map) : nat := if transposed v then stored_rows v else stored_cols v.

(** Offset of the coefficient [(i, j)] of the view. *)
Definition coeff (v : Map) (i j : nat) : nat :=
  op_offset CblasColMajor (if transposed v then CblasTrans else CblasNoTrans)
    (stored_rows v) i j.

(** [dst += alpha * lhs * rhs;].  Eigen asserts that the inner dimensions of
    the product agree and that the product has the shape of [dst].  What a
    failed assertion leads to depends on the build: with assertions compiled
    in the process is aborted, with [NDEBUG] the product is evaluated on
    shapes that do not fit.  Either way the call is outside Eigen's
    contract, and is reported as such. *)
Definition add_product (dst : Map) (alpha : float) (lhs rhs : Map)
    (h : gmap loc (list float)) : res (gmap loc (list float)) :=
  if decide (cols lhs = rows rhs ∧ rows dst = rows lhs ∧ cols dst = cols rhs) then
    muladd (rows dst) (cols dst) (cols lhs) alpha
      (data lhs) (coeff lhs) (data rhs) (coeff rhs) 1 (data dst) (coeff dst) h
  else Err SizeAssert.
End Eigen.

(** ** Issuing a library call *)

(** Run the routine [k] on the heap, log the call, and continue with [next]. *)
Definition invoke (c : kernel_call) (k : gmap loc (list float) → res (gmap loc (list float)))
    (m : machine) (next : machine → outcome) : outcome :=
  match k (heap m) with
  | Ok h' => next (Machine h' (arrays m) (calls m ++ [c]))
  | Err f => Undefined f
  end.

(** ** [BLAS_Add_Mat_x_Vec] *)

(** The body under [#ifdef DFTD4_USE_EIGEN]. *)
Definition BLAS_Add_Mat_x_Vec_eigen (C : TVector.t) (A : TMatrix.t) (V : TVector.t)
    (Transpose : bool) (alpha : float) (m : machine) : outcome :=
  if (TMatrix.rows A =? TVector.N C) && (TMatrix.cols A =? TVector.N V) then
    let eigenA := Eigen.MatrixXd (TMatrix.p A) (TMatrix.rows A) (TMatrix.cols A) in
    let eigenV := Eigen.VectorXd (TVector.p V) (TVector.N V) in
    let eigenC := Eigen.VectorXd (TVector.p C) (TVector.N C) in
    if Transpose then
      invoke call_eigen_product
        (Eigen.add_product eigenC alpha (Eigen.transpose eigenA) eigenV) m
        (Returned EXIT_SUCCESS)
    else
      invoke call_eigen_product
        (Eigen.add_product eigenC alpha eigenA eigenV) m
        (Returned EXIT_SUCCESS)
  else Returned EXIT_FAILURE m.

(** The body under [#else]. *)
Definition BLAS_Add_Mat_x_Vec_cblas (C : TVector.t) (A : TMatrix.t) (V : TVector.t)
    (Transpose : bool) (alpha : float) (m : machine) : outcome :=
  if (TMatrix.rows A =? TVector.N C) && (TMatrix.cols A =? TVector.N V) then
    if Transpose then
      invoke call_cblas_dgemv
        (cblas_dgemv CblasRowMajor CblasTrans (TMatrix.rows A) (TMatrix.cols A)
           alpha (TMatrix.p A) (TMatrix.cols A) (TVector.p V) 1 1 (TVector.p C) 1) m
        (Returned EXIT_SUCCESS)
    else
      invoke call_cblas_dgemv
        (cblas_dgemv CblasRowMajor CblasNoTrans (TMatrix.rows A) (TMatrix.cols A)
           alpha (TMatrix.p A) (TMatrix.cols A) (TVector.p V) 1 1 (TVector.p C) 1) m
        (Returned EXIT_SUCCESS)
  else Returned EXIT_FAILURE m.

Definition BLAS_Add_Mat_x_Vec (DFTD4_USE_EIGEN : bool) (C : TVector.t) (A : TMatrix.t)
    (V : TVector.t) (Transpose : bool) (alpha : float) (m : machine) : outcome :=
  if DFTD4_USE_EIGEN then BLAS_Add_Mat_x_Vec_eigen C A V Transpose alpha m
  else BLAS_Add_Mat_x_Vec_cblas C A V Transpose alpha m.

(** ** [BLAS_Add_Mat_x_Mat] *)

(** The test that opens both bodies: [A.cols == 0 || A.rows == 0 || ...]. *)
Definition size_0 (C A B : TMatrix.t) : bool :=
  (TMatrix.cols A =? 0) || (TMatrix.rows A =? 0) ||
  (TMatrix.cols B =? 0) || (TMatrix.rows B =? 0) ||
  (TMatrix.cols C =? 0) || (TMatrix.rows C =? 0).

(** [x != y] on dimensions. *)
Definition neq (x y : nat) : bool := negb (x =? y).

(** The body under [#ifdef DFTD4_USE_EIGEN]. *)
Definition BLAS_Add_Mat_x_Mat_eigen (C A B : TMatrix.t) (TransposeA TransposeB : bool)
    (alpha : float) (m : machine) : outcome :=
  if size_0 C A B then Returned EXIT_FAILURE m else
  let eigenA := Eigen.MatrixXd (TMatrix.p A) (TMatrix.rows A) (TMatrix.cols A) in
  let eigenB := Eigen.MatrixXd (TMatrix.p B) (TMatrix.rows B) (TMatrix.cols B) in
  let eigenC := Eigen.MatrixXd (TMatrix.p C) (TMatrix.rows C) (TMatrix.cols C) in
  if negb TransposeA then
    if negb TransposeB then
      if neq (TMatrix.cols A) (TMatrix.rows B) || neq (TMatrix.rows A) (TMatrix.rows C)
         || neq (TMatrix.cols B) (TMatrix.cols C)
      then Returned EXIT_FAILURE m
      else invoke call_eigen_product
             (Eigen.add_product eigenC alpha eigenA eigenB) m
             (Returned EXIT_SUCCESS)
    else
      if neq (TMatrix.cols A) (TMatrix.cols B) || neq (TMatrix.rows A) (TMatrix.rows C)
         || neq (TMatrix.rows B) (TMatrix.cols C)
      then Returned EXIT_FAILURE m
      else invoke call_eigen_product
             (Eigen.add_product eigenC alpha eigenA (Eigen.transpose eigenB)) m
             (Returned EXIT_SUCCESS)
  else
    if negb TransposeB then
      if neq (TMatrix.rows A) (TMatrix.rows B) || neq (TMatrix.cols A) (TMatrix.rows C)
         || neq (TMatrix.cols B) (TMatrix.cols C)
      then Returned EXIT_FAILURE m
      else invoke call_eigen_product
             (Eigen.add_product eigenC alpha (Eigen.transpose eigenA) eigenB) m
             (Returned EXIT_SUCCESS)
    else
      if neq (TMatrix.rows A) (TMatrix.cols B) || neq (TMatrix.cols A) (TMatrix.rows C)
         || neq (TMatrix.rows B) (TMatrix.cols C)
      then Returned EXIT_FAILURE m
      else invoke call_eigen_product
             (Eigen.add_product eigenC alpha (Eigen.transpose eigenA) (Eigen.transpose eigenB)) m
             (Returned EXIT_SUCCESS).

(** The body under [#else]. *)
Definition BLAS_Add_Mat_x_Mat_cblas (C A B : TMatrix.t) (TransposeA TransposeB : bool)
    (alpha : float) (m : machine) : outcome :=
  if size_0 C A B then Exited EXIT_FAILURE m else
  if negb TransposeA then
    if negb TransposeB then
      if neq (TMatrix.cols A) (TMatrix.rows B) || neq (TMatrix.rows A) (TMatrix.rows C)
         || neq (TMatrix.cols B) (TMatrix.cols C)
      then Exited EXIT_FAILURE m
      else invoke call_cblas_dgemm
             (cblas_dgemm CblasRowMajor CblasNoTrans CblasNoTrans
                (TMatrix.rows C) (TMatrix.cols C) (TMatrix.cols A) alpha
                (TMatrix.p A) (TMatrix.cols A) (TMatrix.p B) (TMatrix.cols B)
                1 (TMatrix.p C) (TMatrix.cols C)) m
             (Returned EXIT_SUCCESS)
    else
      if neq (TMatrix.cols A) (TMatrix.cols B) || neq (TMatrix.rows A) (TMatrix.rows C)
         || neq (TMatrix.rows B) (TMatrix.cols C)
      then Exited EXIT_FAILURE m
      else invoke call_cblas_dgemm
             (cblas_dgemm CblasRowMajor CblasNoTrans CblasTrans
                (TMatrix.rows C) (TMatrix.cols C) (TMatrix.cols A) alpha
                (TMatrix.p A) (TMatrix.cols A) (TMatrix.p B) (TMatrix.cols B)
                1 (TMatrix.p C) (TMatrix.cols C)) m
             (Returned EXIT_SUCCESS)
  else
    if negb TransposeB then
      if neq (TMatrix.rows A) (TMatrix.rows B) || neq (TMatrix.cols A) (TMatrix.rows C)
         || neq (TMatrix.cols B) (TMatrix.cols C)
      then Exited EXIT_FAILURE m
      else invoke call_cblas_dgemm
             (cblas_dgemm CblasRowMajor CblasTrans CblasNoTrans
                (TMatrix.rows C) (TMatrix.cols C) (TMatrix.rows A) alpha
                (TMatrix.p A) (TMatrix.cols A) (TMatrix.p B) (TMatrix.cols B)
                1 (TMatrix.p C) (TMatrix.cols C)) m
             (Returned EXIT_SUCCESS)
    else
      if neq (TMatrix.rows A) (TMatrix.cols B) || neq (TMatrix.cols A) (TMatrix.rows C)
         || neq (TMatrix.rows B) (TMatrix.cols C)
      then Exited EXIT_FAILURE m
      else invoke call_cblas_dgemm
             (cblas_dgemm CblasRowMajor CblasTrans CblasTrans
                (TMatrix.rows C) (TMatrix.cols C) (TMatrix.rows A) alpha
                (TMatrix.p A) (TMatrix.cols A) (TMatrix.p B) (TMatrix.cols B)
                1 (TMatrix.p C) (TMatrix.cols C)) m
             (Returned EXIT_SUCCESS).

Definition BLAS_Add_Mat_x_Mat (DFTD4_USE_EIGEN : bool) (C A B : TMatrix.t)
    (TransposeA TransposeB : bool) (alpha : float) (m : machine) : outcome :=
  if DFTD4_USE_EIGEN then BLAS_Add_Mat_x_Mat_eigen C A B TransposeA TransposeB alpha m
  else BLAS_Add_Mat_x_Mat_cblas C A B TransposeA TransposeB alpha m.

(** ** [BLAS_InvertMatrix] *)

(** The factorization and inversion routines are external and their results
    depend on the numerical contents of the operand, so they are taken as
    parameters: each maps the contents of the buffers it is handed to their
    new contents and to the status it reports.

    - [LAPACKE_dgetrf m n a lda] gives the factored matrix, the pivot
      indices and [info];
    - [LAPACKE_dgetri n a lda ipiv] gives the inverse and [info];
    - [eigen_inverse rows cols a] is the evaluation of [eigenA.inverse()]:
      the inverse, or [None] when the evaluation throws. *)
Record numerics := Numerics {
  LAPACKE_dgetrf : nat → nat → list float → nat → list float * list Z * Z;
  LAPACKE_dgetri : nat → list float → nat → list Z → list float * Z;
  eigen_inverse : nat → nat → list float → option (list float)
}.

(** The first [n] doubles behind [l], which a routine is about to work on.
    No element is touched when [n = 0]. *)
Definition region (h : gmap loc (list float)) (l : loc) (n : nat) : res (list float) :=
  match h !! l with
  | Some b =>
      if decide (n ≤ length b) then Ok (take n b) else Err (OutOfBounds l (length b))
  | None => if decide (n = 0) then Ok [] else Err (OutOfBounds l 0)
  end.

(** The doubles behind [l] replaced, from the first one on, by [new]. *)
Definition write_region (h : gmap loc (list float)) (l : loc) (new : list float)
  : gmap loc (list float) :=
  match h !! l with
  | Some b => <[l := new ++ drop (length new) b]> h
  | None => h
  end.

(** [new lapack_int[n]] *)
Definition new_lapack_int (n : nat) (m : machine) : loc * machine :=
  let l := fresh (dom (arrays m)) in
  (l, Machine (heap m) (<[l := replicate n 0%Z]> (arrays m)) (calls m)).

(** [delete[] l] *)
Definition delete_array (l : loc) (m : machine) : machine :=
  Machine (heap m) (delete l (arrays m)) (calls m).

Section Inversion.
Variable K : numerics.

(** [info = LAPACKE_dgetrf(LAPACK_ROW_MAJOR, m, n, a, lda, ipiv);] *)
Definition dgetrf (m n : nat) (a : loc) (lda : nat) (ipiv : loc) (s : machine)
    (next : Z → machine → outcome) : outcome :=
  match region (heap s) a (m * lda), arrays s !! ipiv with
  | Ok buf, Some _ =>
      let '(buf', piv, info) := LAPACKE_dgetrf K m n buf lda in
      next info (Machine (write_region (heap s) a buf') (<[ipiv := piv]> (arrays s))
                   (calls s ++ [call_LAPACKE_dgetrf]))
  | Err f, _ => Undefined f
  | Ok _, None => Undefined (OutOfBounds ipiv 0)
  end.

(** [info = LAPACKE_dgetri(LAPACK_ROW_MAJOR, n, a, lda, ipiv);] *)
Definition dgetri (n : nat) (a : loc) (lda : nat) (ipiv : loc) (s : machine)
    (next : Z → machine → outcome) : outcome :=
  match region (heap s) a (n * lda), arrays s !! ipiv with
  | Ok buf, Some piv =>
      let '(buf', info) := LAPACKE_dgetri K n buf lda piv in
      next info (Machine (write_region (heap s) a buf') (arrays s)
                   (calls s ++ [call_LAPACKE_dgetri]))
  | Err f, _ => Undefined f
  | Ok _, None => Undefined (OutOfBounds ipiv 0)
  end.

(** The body under [#ifdef DFTD4_USE_EIGEN]. *)
Definition BLAS_InvertMatrix_eigen (a : TMatrix.t) (s : machine) : outcome :=
  if neq (TMatrix.rows a) (TMatrix.cols a) then Returned EXIT_FAILURE s else
  match region (heap s) (TMatrix.p a) (TMatrix.rows a * TMatrix.cols a) with
  | Ok buf =>
      match eigen_inverse K (TMatrix.rows a) (TMatrix.cols a) buf with
      | Some buf' =>                    (* [eigenA = eigenA.inverse();] *)
          Returned EXIT_SUCCESS
            (Machine (write_region (heap s) (TMatrix.p a) buf') (arrays s)
               (calls s ++ [call_eigen_inverse]))
      | None =>                         (* [catch (...)] *)
          Returned EXIT_FAILURE
            (Machine (heap s) (arrays s) (calls s ++ [call_eigen_inverse]))
      end
  | Err f => Undefined f
  end.

(** The body under [#else]. *)
Definition BLAS_InvertMatrix_cblas (a : TMatrix.t) (s : machine) : outcome :=
  if neq (TMatrix.rows a) (TMatrix.cols a) then Returned EXIT_FAILURE s else
  let '(ipiv, s) := new_lapack_int (TMatrix.rows a) s in
  dgetrf (TMatrix.rows a) (TMatrix.cols a) (TMatrix.p a) (TMatrix.cols a) ipiv s
    (λ info s,
  if negb (info =? 0)%Z then Returned EXIT_FAILURE s else
  dgetri (TMatrix.rows a) (TMatrix.p a) (TMatrix.cols a) ipiv s
    (λ info s,
  if negb (info =? 0)%Z then Returned EXIT_FAILURE s else
  let s := delete_array ipiv s in
  Returned EXIT_SUCCESS s)).

Definition BLAS_InvertMatrix (DFTD4_USE_EIGEN : bool) (a : TMatrix.t) (s : machine)
  : outcome :=
  if DFTD4_USE_EIGEN then BLAS_InvertMatrix_eigen a s else BLAS_InvertMatrix_cblas a s.

End Inversion.

(** ** The shapes the contract asks for

    The spec's words, for comparison with the tests the wrappers make: the
    operand [op(X)] is [X] or its transpose; gemv wants [op(A)] to have as
    many rows as [C] has entries and as many columns as [V] has entries;
    gemm wants the inner dimensions of [op(A)] and [op(B)] to agree and
    their outer dimensions to be the row and column counts of [C]. *)
Definition op_rows (transposed : bool) (X : TMatrix.t) : nat :=
  if transposed then TMatrix.cols X else TMatrix.rows X.
Definition op_cols (transposed : bool) (X : TMatrix.t) : nat :=
  if transposed then TMatrix.rows X else TMatrix.cols X.

Definition gemv_conformable (Transpose : bool) (C : TVector.t) (A : TMatrix.t)
    (V : TVector.t) : Prop :=
  op_rows Transpose A = TVector.N C ∧ op_cols Transpose A = TVector.N V.

Definition gemm_conformable (TransposeA TransposeB : bool) (C A B : TMatrix.t) : Prop :=
  op_cols TransposeA A = op_rows TransposeB B
  ∧ op_rows TransposeA A = TMatrix.rows C
  ∧ op_cols TransposeB B = TMatrix.cols C.

#[global] Instance gemv_conformable_dec T C A V : Decision (gemv_conformable T C A V).
Proof. unfold gemv_conformable. apply _. Defined.

#[global] Instance gemm_conformable_dec TA TB C A B : Decision (gemm_conformable TA TB C A B).
Proof. unfold gemm_conformable. apply _. Defined.

(** An operand with zero rows or zero columns. *)
Definition degenerate (X : TMatrix.t) : Prop :=
  TMatrix.rows X = 0 ∨ TMatrix.cols X = 0.

(** The data-model invariant: the buffer behind [l] has at least [n] doubles. *)
Definition holds (h : gmap loc (list float)) (l : loc) (n : nat) : Prop :=
  ∃ b, h !! l = Some b ∧ n ≤ length b.
Definition matrix_in (h : gmap loc (list float)) (X : TMatrix.t) : Prop :=
  holds h (TMatrix.p X) (TMatrix.rows X * TMatrix.cols X).
Definition vector_in (h : gmap loc (list float)) (X : TVector.t) : Prop :=
  holds h (TVector.p X) (TVector.N X).

(** The machine a call leaves behind, when it leaves one. *)
Definition final (o : outcome) : option machine :=
  match o with
  | Returned _ m | Exited _ m => Some m
  | Undefined _ => None
  end.

(** ** What a call may change *)

(** [h'] differs from [h] at most in the elements of block [C] whose index
    satisfies [idx]; no block appears, disappears or changes its length. *)
Definition touches_only (C : loc) (idx : nat → Prop) (h h' : gmap loc (list float)) : Prop :=
  (∀ l, l ≠ C → h' !! l = h !! l) ∧
  match h !! C, h' !! C with
  | Some c, Some c' => length c' = length c ∧ ∀ t, ¬ idx t → c' !! t = c !! t
  | None, None => True
  | _, _ => False
  end.

(** A call that comes back has left the [lapack_int] arrays alone and has
    changed no buffer other than the one behind [pC]; a call that comes
    back with anything but [EXIT_SUCCESS], or ends the process, has changed
    nothing at all. *)
Definition changes_at_most (pC : loc) (m : machine) (o : outcome) : Prop :=
  match o with
  | Returned rc m' =>
      arrays m' = arrays m
      ∧ touches_only pC (λ _, True) (heap m) (heap m')
      ∧ (rc ≠ EXIT_SUCCESS → m' = m)
  | Exited _ m' => m' = m
  | Undefined _ => True
  end.

(** ** The product the contract asks for

    The spec's words, for comparison with what the wrappers compute: [A] is
    row-major, so its entry [(i, j)] is the double at [i * cols + j]; gemv
    leaves [alpha * op(A) * V + 1 * C] in [C], the prior value of every entry
    of [C] being added once. *)
#[global] Instance float_inhabited : Inhabited float := populate 0%float.

Fixpoint sum_upto (n : nat) (f : nat → float) : float :=
  match n with
  | O => 0%float
  | S k => (sum_upto k f + f k)%float
  end.

Definition entry (A : TMatrix.t) (a : list float) (i j : nat) : float :=
  a !!! (i * TMatrix.cols A + j).

Definition op_entry (transposed : bool) (A : TMatrix.t) (a : list float) (i k : nat)
  : float :=
  if transposed then entry A a k i else entry A a i k.

Definition gemv_contract (Transpose : bool) (alpha : float) (A : TMatrix.t)
    (a v c : list float) : list float :=
  imap (λ i ci,
          (ci + alpha * sum_upto (op_cols Transpose A)
                          (λ k, op_entry Transpose A a i k * v !!! k))%float) c.




(** ** Sample operands

    Buffers live at the addresses 1 ([C]), 2 ([A]) and 3 ([V] or [B]). *)
Definition at_C : loc := 1%positive.
Definition at_A : loc := 2%positive.
Definition at_V : loc := 3%positive.
Definition at_B : loc := 3%positive.

(** A machine that holds the three buffers and nothing else. *)
Definition holding (c a v : list float) : machine :=
  Machine {[ at_C := c; at_A := a; at_V := v ]} ∅ [].

(** ** Library doubles

    A stand-in for the numerical libraries that reports the statuses it is
    given and leaves every buffer as it finds it: [info_trf] from the
    factorization, [info_tri] from the reconstruction, and an exception from
    [inverse()] when [throws] is set. *)
Definition scripted (info_trf info_tri : Z) (throws : bool) : numerics :=
  Numerics
    (λ m n a lda, (a, replicate (m `min` n) 1%Z, info_trf))
    (λ n a lda ipiv, (a, info_tri))
    (λ rows cols a, if throws then None else Some a).

(** * Properties *)

(** ** Loops and element access *)

Lemma bind_Ok {A B : Type} (r : res A) (k : A → res B) (y : B) :
  r ≫= k = Ok y ↔ ∃ x, r = Ok x ∧ k x = Ok y.
Proof.
  destruct r as [x|f]; simpl.
  - split; [eauto | by intros (? & [= <-] & ?)].
  - split; [discriminate | by intros (? & ? & ?)].
Qed.

Lemma for_upto_ind {T : Type} (P : nat → T → Prop) n (body : nat → T → res T) s :
  P 0 s →
  (∀ i t t', i < n → P i t → body i t = Ok t' → P (S i) t') →
  ∀ s', for_upto n body s = Ok s' → P n s'.
Proof.
  intros H0 Hstep. induction n as [|n IH]; intros s'; simpl.
  - by intros [= <-].
  - intros (t & Ht & Hb)%bind_Ok.
    apply (Hstep n t); [lia | | done].
    apply IH; [|done]. intros i u u' ?. apply Hstep. lia.
Qed.

Lemma for_upto_total {T : Type} (P : nat → T → Prop) n (body : nat → T → res T) s :
  P 0 s →
  (∀ i t, i < n → P i t → ∃ t', body i t = Ok t' ∧ P (S i) t') →
  ∃ s', for_upto n body s = Ok s' ∧ P n s'.
Proof.
  intros H0 Hstep. induction n as [|n IH]; simpl.
  - eauto.
  - destruct IH as (t & -> & Ht); [intros i u ?; apply Hstep; lia|].
    simpl. apply Hstep; [lia | done].
Qed.

Lemma for_upto_S {T : Type} n (body : nat → T → res T) s :
  for_upto (S n) body s = for_upto n body s ≫= body n.
Proof. done. Qed.

Lemma for_upto_Err {T : Type} n k (body : nat → T → res T) s f :
  for_upto k body s = Err f → k ≤ n → for_upto n body s = Err f.
Proof.
  intros Hk Hle. induction Hle as [|n Hle IH]; [done|].
  simpl. by rewrite IH.
Qed.

Lemma load_Ok h l i x :
  load h l i = Ok x ↔ ∃ b, h !! l = Some b ∧ b !! i = Some x.
Proof.
  unfold load. destruct (h !! l) as [b|]; [|split; [discriminate | by intros (? & ? & ?)]].
  destruct (b !! i) as [y|] eqn:Hy.
  - split; [intros [= <-]; eauto | intros (? & [= <-] & ?); congruence].
  - split; [discriminate | intros (? & [= <-] & ?); congruence].
Qed.

Lemma store_Ok h l i x h' :
  store h l i x = Ok h' ↔
  ∃ b, h !! l = Some b ∧ i < length b ∧ h' = <[l := <[i := x]> b]> h.
Proof.
  unfold store. destruct (h !! l) as [b|]; [|split; [discriminate | by intros (? & ? & ?)]].
  case_decide.
  - split; [intros [= <-]; eauto | intros (? & [= <-] & ? & ->); done].
  - split; [discriminate | intros (? & [= <-] & ? & ?); lia].
Qed.

(** ** What a multiply-accumulate writes *)

Lemma touches_only_refl C idx h : touches_only C idx h h.
Proof. split; [done|]. by destruct (h !! C). Qed.

Lemma touches_only_store C idx h hj i x h' :
  touches_only C idx h hj → idx i → store hj C i x = Ok h' → touches_only C idx h h'.
Proof.
  intros [Hother HC] Hi (b & Hb & Hlt & ->)%store_Ok. split.
  - intros l Hl. rewrite lookup_insert_ne by done. by apply Hother.
  - rewrite lookup_insert_eq. rewrite Hb in HC.
    destruct (h !! C) as [c|]; [|done]. destruct HC as [Hlen Hsame]. split.
    + by rewrite length_insert.
    + intros t Ht. rewrite list_lookup_insert_ne; [by apply Hsame|].
      intros ->. by apply Ht.
Qed.

Lemma muladd_touches M N K alpha A ia B ib beta C ic h h' :
  muladd M N K alpha A ia B ib beta C ic h = Ok h' →
  touches_only C (λ t, ∃ i j, i < M ∧ j < N ∧ t = ic i j) h h'.
Proof.
  unfold muladd.
  apply (for_upto_ind (λ _ t, touches_only C _ h t)); [apply touches_only_refl|].
  intros i t t' Hi Ht.
  apply (for_upto_ind (λ _ u, touches_only C _ h u)); [done|].
  intros j u u' Hj Hu (d & _ & (c & _ & Hst)%bind_Ok)%bind_Ok.
  eapply touches_only_store; [done | | done]. by exists i, j.
Qed.

(** ** When a multiply-accumulate stays inside its buffers *)

Lemma dot_total h A ia B ib n a b :
  h !! A = Some a → h !! B = Some b →
  (∀ k, k < n → ia k < length a ∧ ib k < length b) →
  ∃ d, dot h A ia B ib n = Ok d.
Proof.
  intros HA HB Hin. induction n as [|n IH]; simpl; [eauto|].
  destruct IH as [acc ->]; [intros k ?; apply Hin; lia|]. simpl.
  destruct (Hin n ltac:(lia)) as [Ha Hb].
  apply lookup_lt_is_Some_2 in Ha as [x Hx]. apply lookup_lt_is_Some_2 in Hb as [y Hy].
  rewrite (proj2 (load_Ok h A (ia n) x)) by eauto. simpl.
  rewrite (proj2 (load_Ok h B (ib n) y)) by eauto. simpl. eauto.
Qed.

Lemma muladd_total M N K alpha A ia B ib beta C ic h a b c :
  h !! A = Some a → h !! B = Some b → h !! C = Some c →
  (∀ i k, i < M → k < K → ia i k < length a) →
  (∀ k j, k < K → j < N → ib k j < length b) →
  (∀ i j, i < M → j < N → ic i j < length c) →
  ∃ h', muladd M N K alpha A ia B ib beta C ic h = Ok h'.
Proof.
  intros HA HB HC Hia Hib Hic. unfold muladd.
  pose (P := λ t : gmap loc (list float), ∃ c', t !! C = Some c' ∧ length c' = length c).
  destruct (for_upto_total (λ _, P) M
    (λ i, for_upto N (λ j hj,
       d ← dot h A (ia i) B (λ k, ib k j) K;
       c ← load hj C (ic i j);
       store hj C (ic i j) (scal beta c + alpha * d)%float)) h) as (h' & Hh' & _);
    [by exists c | | by eauto].
  intros i t Hi Ht.
  apply (for_upto_total (λ _, P)); [done|].
  intros j u Hj (c' & Hc' & Hlen).
  destruct (dot_total h A (ia i) B (λ k, ib k j) K a b HA HB) as [d ->];
    [intros k Hk; split; [by apply Hia | by apply Hib]|]. simpl.
  specialize (Hic i j Hi Hj). rewrite <- Hlen in Hic.
  destruct (lookup_lt_is_Some_2 _ _ Hic) as [y Hy].
  rewrite (proj2 (load_Ok u C (ic i j) y)) by eauto. simpl.
  eexists. split.
  - apply store_Ok. eauto.
  - exists (<[ic i j := (scal beta y + alpha * d)%float]> c').
    by rewrite lookup_insert_eq, length_insert.
Qed.

(** ** When a multiply-accumulate leaves the result buffer *)

(** A result with [M] entries written into a buffer that is shorter: the
    routine gets as far as the end of the buffer. *)
Lemma muladd_column_overrun M K alpha A ia B ib beta C ic h a b c :
  h !! A = Some a → h !! B = Some b → h !! C = Some c →
  length c < M →
  (∀ i, i ≤ length c → ic i 0 = i) →
  (∀ i k, i ≤ length c → k < K → ia i k < length a ∧ ib k 0 < length b) →
  muladd M 1 K alpha A ia B ib beta C ic h = Err (OutOfBounds C (length c)).
Proof.
  intros HA HB HC HM Hic Hin. set (n := length c) in *.
  destruct (muladd_total n 1 K alpha A ia B ib beta C ic h a b c HA HB HC)
    as [t Ht].
  { intros i k Hi Hk. apply Hin; [lia|done]. }
  { intros k j Hk Hj. replace j with 0 by lia. apply (Hin 0); [lia|done]. }
  { intros i j Hi Hj. replace j with 0 by lia. rewrite Hic; lia. }
  pose proof (muladd_touches _ _ _ _ _ _ _ _ _ _ _ _ _ Ht) as [_ Hlen].
  rewrite HC in Hlen. destruct (t !! C) as [c'|] eqn:Hc'; [|done].
  destruct Hlen as [Hlen _].
  unfold muladd in *. apply (for_upto_Err M (S n)); [|lia].
  rewrite for_upto_S, Ht. simpl.
  destruct (dot_total h A (ia n) B (λ k, ib k 0) K a b HA HB) as [d ->].
  { intros k Hk. apply Hin; [lia|done]. }
  simpl. rewrite Hic by lia. unfold load. rewrite Hc'.
  by rewrite (lookup_ge_None_2 c' n) by lia.
Qed.

Lemma dot_Err h A ia B ib n k f :
  dot h A ia B ib k = Err f → k ≤ n → dot h A ia B ib n = Err f.
Proof.
  intros Hk Hle. induction Hle as [|n Hle IH]; [done|].
  simpl. by rewrite IH.
Qed.

(** An operand with [K] entries read from a buffer that is shorter: the
    routine gets as far as the end of the buffer. *)
Lemma muladd_column_overread M K alpha A ia B ib beta C ic h a b :
  h !! A = Some a → h !! B = Some b →
  0 < M → length b < K →
  (∀ k, k ≤ length b → ib k 0 = k) →
  (∀ k, k ≤ length b → ia 0 k < length a) →
  muladd M 1 K alpha A ia B ib beta C ic h = Err (OutOfBounds B (length b)).
Proof.
  intros HA HB HM HK Hib Hia. set (n := length b) in *.
  unfold muladd. apply (for_upto_Err M 1); [|lia].
  rewrite !for_upto_S. simpl.
  rewrite (dot_Err h A (ia 0) B (λ k, ib k 0) K (S n) (OutOfBounds B n)); [done| |lia].
  simpl.
  destruct (dot_total h A (ia 0) B (λ k, ib k 0) n a b HA HB) as [d ->].
  { intros k Hk. split; [apply Hia; lia | rewrite Hib; lia]. }
  simpl.
  destruct (lookup_lt_is_Some_2 a (ia 0 n) (Hia n ltac:(lia))) as [x Hx].
  rewrite (proj2 (load_Ok h A (ia 0 n) x)) by eauto. simpl.
  rewrite Hib by lia. unfold load. rewrite HB.
  by rewrite (lookup_ge_None_2 b n) by lia.
Qed.

(** ** What a multiply-accumulate with one column leaves behind *)




(** ** What a multiply-accumulate leaves behind in general *)



(** ** Column-major offsets *)





(** ** binary64 multiplication commutes *)


(** ** The wrappers' own tests *)

Lemma invoke_Ok c k m h' next :
  k (heap m) = Ok h' →
  invoke c k m next = next (Machine h' (arrays m) (calls m ++ [c])).
Proof. unfold invoke. by intros ->. Qed.

(** ** The course of a routine *)

Lemma routine_Ok refused quick kernel h h' :
  routine refused quick kernel h = Ok h' ↔
  refused = None ∧ ∃ t, kernel h = Ok t ∧ h' = if quick then h else t.
Proof.
  unfold routine. destruct refused as [arg|].
  { split; [discriminate | by intros [? _]]. }
  destruct (kernel h) as [t|f]; simpl.
  - split; [intros [= <-]; eauto | intros (_ & ? & [= <-] & ->); done].
  - split; [discriminate | by intros (_ & ? & ? & _)].
Qed.

Lemma routine_Err quick kernel h f :
  kernel h = Err f → routine None quick kernel h = Err f.
Proof. unfold routine. by intros ->. Qed.

Lemma routine_touches refused quick kernel C idx h h' :
  (∀ t, kernel h = Ok t → touches_only C idx h t) →
  routine refused quick kernel h = Ok h' → touches_only C idx h h'.
Proof.
  intros Hk (_ & t & Ht & ->)%routine_Ok.
  destruct quick; [apply touches_only_refl | by apply Hk].
Qed.

Lemma routine_carried_out quick kernel C idx h t :
  kernel h = Ok t → touches_only C idx h t →
  ∃ h', routine None quick kernel h = Ok h' ∧ touches_only C idx h h'.
Proof.
  intros Ht Htouch. exists (if quick then h else t). split.
  - unfold routine. by rewrite Ht.
  - destruct quick; [apply touches_only_refl | done].
Qed.

(** The calls the vendor bodies make are in row-major order with unit
    increments; the tests of the arguments then come down to the leading
    dimensions. *)
Lemma cblas_dgemv_accepted TransA M N alpha A lda X beta Y h :
  0 < lda → N ≤ lda →
  cblas_dgemv CblasRowMajor TransA M N alpha A lda X 1 beta Y 1 h =
    routine None
      ((M =? 0) || (N =? 0) || (PrimFloat.eqb alpha 0 && PrimFloat.eqb beta 1))
      (muladd (match TransA with CblasNoTrans => M | CblasTrans => N end) 1
         (match TransA with CblasNoTrans => N | CblasTrans => M end) alpha
         A (op_offset CblasRowMajor TransA lda) X (λ k _, k * 1)
         beta Y (λ i _, i * 1)) h.
Proof.
  intros Hpos Hle. unfold cblas_dgemv, stride.
  by rewrite (proj2 (Nat.ltb_ge _ _)) by lia.
Qed.

Lemma cblas_dgemv_refused TransA M N alpha A lda X incX beta Y incY h :
  lda = 0 ∨ lda < N →
  cblas_dgemv CblasRowMajor TransA M N alpha A lda X incX beta Y incY h =
    Err (IllegalArgument 7).
Proof.
  intros Hbad. unfold cblas_dgemv, stride.
  by rewrite (proj2 (Nat.ltb_lt _ _)) by lia.
Qed.

Lemma cblas_dgemm_accepted TransA TransB M N K alpha A lda B ldb beta C ldc h :
  0 < lda → 0 < ldb → 0 < ldc →
  match TransA with CblasNoTrans => K | CblasTrans => M end ≤ lda →
  match TransB with CblasNoTrans => N | CblasTrans => K end ≤ ldb →
  N ≤ ldc →
  cblas_dgemm CblasRowMajor TransA TransB M N K alpha A lda B ldb beta C ldc h =
    routine None
      ((M =? 0) || (N =? 0)
       || ((PrimFloat.eqb alpha 0 || (K =? 0)) && PrimFloat.eqb beta 1))
      (muladd M N K alpha
         A (op_offset CblasRowMajor TransA lda)
         B (op_offset CblasRowMajor TransB ldb)
         beta C (offset CblasRowMajor ldc)) h.
Proof.
  intros HA HB HC Hlda Hldb Hldc. unfold cblas_dgemm, stride.
  destruct TransA, TransB; by rewrite !(proj2 (Nat.ltb_ge _ _)) by lia.
Qed.

Lemma touches_only_weaken C (idx idx' : nat → Prop) h h' :
  (∀ t, idx t → idx' t) → touches_only C idx h h' → touches_only C idx' h h'.
Proof.
  intros Himp [Hother HC]. split; [done|].
  destruct (h !! C), (h' !! C); try done.
  destruct HC as [Hlen Hsame]. split; [done|]. intros t Ht. apply Hsame. naive_solver.
Qed.

Lemma size_0_true C A B :
  size_0 C A B = true ↔ degenerate A ∨ degenerate B ∨ degenerate C.
Proof.
  unfold size_0, degenerate. rewrite !orb_true_iff, !Nat.eqb_eq. tauto.
Qed.

Lemma size_0_false C A B :
  size_0 C A B = false ↔ ¬ degenerate A ∧ ¬ degenerate B ∧ ¬ degenerate C.
Proof.
  rewrite <- not_true_iff_false, size_0_true. tauto.
Qed.

Lemma neq_false x y : neq x y = false ↔ x = y.
Proof. unfold neq. rewrite negb_false_iff. apply Nat.eqb_eq. Qed.

Lemma gemm_test_false a b c d e f :
  neq a b || neq c d || neq e f = false ↔ a = b ∧ c = d ∧ e = f.
Proof. rewrite !orb_false_iff, !neq_false. tauto. Qed.

Lemma gemm_test_true a b c d e f :
  neq a b || neq c d || neq e f = true ↔ ¬ (a = b ∧ c = d ∧ e = f).
Proof. rewrite <- gemm_test_false. by destruct (_ || _ || _). Qed.

(** A call with an empty operand, or with dimensions that do not fit, gets
    past no test: it ends with [EXIT_FAILURE] on the machine it started
    from, by [return] in the Eigen body and by [exit] in the vendor body. *)
Lemma gemm_turned_down (DFTD4_USE_EIGEN : bool) C A B TransposeA TransposeB alpha m :
  size_0 C A B = true ∨ ¬ gemm_conformable TransposeA TransposeB C A B →
  BLAS_Add_Mat_x_Mat DFTD4_USE_EIGEN C A B TransposeA TransposeB alpha m =
    if DFTD4_USE_EIGEN then Returned EXIT_FAILURE m else Exited EXIT_FAILURE m.
Proof.
  intros Hbad.
  unfold BLAS_Add_Mat_x_Mat, BLAS_Add_Mat_x_Mat_eigen, BLAS_Add_Mat_x_Mat_cblas.
  destruct (size_0 C A B); [by destruct DFTD4_USE_EIGEN|].
  destruct Hbad as [|Hbad]; [done|].
  unfold gemm_conformable, op_rows, op_cols in Hbad.
  destruct DFTD4_USE_EIGEN, TransposeA, TransposeB; simpl;
    rewrite (proj2 (gemm_test_true _ _ _ _ _ _)); done.
Qed.

(** A call that passes the tests runs the multiply inside the three
    buffers and returns [EXIT_SUCCESS]; it has issued one library call and
    written to nothing but the [rows * cols] doubles of [C]. *)
Lemma gemm_carried_out (DFTD4_USE_EIGEN : bool) C A B TransposeA TransposeB alpha m :
  size_0 C A B = false → gemm_conformable TransposeA TransposeB C A B →
  matrix_in (heap m) A → matrix_in (heap m) B → matrix_in (heap m) C →
  ∃ h', BLAS_Add_Mat_x_Mat DFTD4_USE_EIGEN C A B TransposeA TransposeB alpha m =
          Returned EXIT_SUCCESS
            (Machine h' (arrays m)
               (calls m ++ [if DFTD4_USE_EIGEN then call_eigen_product else call_cblas_dgemm]))
        ∧ touches_only (TMatrix.p C) (λ t, t < TMatrix.rows C * TMatrix.cols C) (heap m) h'.
Proof.
  intros Hsz (Hin & Hro & Hco) (a & Ha & Hla) (b & Hb & Hlb) (c & Hc & Hlc).
  pose proof (proj1 (size_0_false C A B) Hsz) as (HdA & HdB & HdC).
  unfold BLAS_Add_Mat_x_Mat, BLAS_Add_Mat_x_Mat_eigen, BLAS_Add_Mat_x_Mat_cblas.
  rewrite Hsz. unfold op_rows, op_cols, degenerate in *.
  destruct A as [rA cA pA], B as [rB cB pB], C as [rC cC pC]. simpl in *.
  destruct DFTD4_USE_EIGEN, TransposeA, TransposeB; simpl;
    rewrite (proj2 (gemm_test_false _ _ _ _ _ _)) by done;
    unfold invoke, Eigen.add_product, Eigen.rows, Eigen.cols; simpl;
    try (rewrite decide_True by (repeat split; congruence));
    try (rewrite cblas_dgemm_accepted by lia);
    match goal with
    | |- context [muladd ?M ?N ?K ?al ?A ?ia ?B ?ib ?be ?C ?ic] =>
        destruct (muladd_total M N K al A ia B ib be C ic (heap m) a b c Ha Hb Hc)
          as [t Ht];
        [ intros; unfold Eigen.coeff; simpl; nia
        | intros; unfold Eigen.coeff; simpl; nia
        | intros; unfold Eigen.coeff; simpl; nia
        | assert (Htouch : touches_only pC (λ t, t < rC * cC) (heap m) t)
            by (eapply touches_only_weaken; [|exact (muladd_touches _ _ _ _ _ _ _ _ _ _ _ _ _ Ht)];
                intros u (i & j & Hi & Hj & ->); unfold Eigen.coeff; simpl; nia);
          first
            [ rewrite Ht; by exists t
            | edestruct (routine_carried_out) as (h' & Hrun & Hh');
              [exact Ht | exact Htouch | rewrite Hrun; by exists h'] ] ]
    end.
Qed.

(** X3.  gemm stays inside its buffers.  For operands none of which is
    empty, whose dimensions fit the transpose combination and whose buffers
    hold [rows * cols] doubles, the library call made by either body reads
    and writes inside the three buffers: the call returns [EXIT_SUCCESS],
    and has written to nothing but the [rows * cols] doubles of [C]. *)
Theorem gemm_stays_in_bounds (DFTD4_USE_EIGEN : bool) C A B TransposeA TransposeB alpha m :
  ¬ degenerate A → ¬ degenerate B → ¬ degenerate C →
  gemm_conformable TransposeA TransposeB C A B →
  matrix_in (heap m) A → matrix_in (heap m) B → matrix_in (heap m) C →
  ∃ h', BLAS_Add_Mat_x_Mat DFTD4_USE_EIGEN C A B TransposeA TransposeB alpha m =
          Returned EXIT_SUCCESS
            (Machine h' (arrays m)
               (calls m ++ [if DFTD4_USE_EIGEN then call_eigen_product else call_cblas_dgemm]))
        ∧ touches_only (TMatrix.p C) (λ t, t < TMatrix.rows C * TMatrix.cols C) (heap m) h'.
Proof.
  intros HA HB HC Hok HinA HinB HinC.
  apply gemm_carried_out; [by apply size_0_false | done..].
Qed.

(** ** gemv: what the test lets through *)

Lemma gemv_test C A V :
  (TMatrix.rows A =? TVector.N C) && (TMatrix.cols A =? TVector.N V) = true
  ↔ gemv_conformable false C A V.
Proof.
  unfold gemv_conformable, op_rows, op_cols.
  by rewrite andb_true_iff, !Nat.eqb_eq.
Qed.

(** The test of [BLAS_Add_Mat_x_Vec] compares [A.rows] with the length of
    [C] and [A.cols] with the length of [V] before it looks at [Transpose]:
    a call is turned down exactly when [A] as stored does not fit. *)
Lemma gemv_turned_down (DFTD4_USE_EIGEN : bool) C A V Transpose alpha m :
  ¬ gemv_conformable false C A V →
  BLAS_Add_Mat_x_Vec DFTD4_USE_EIGEN C A V Transpose alpha m = Returned EXIT_FAILURE m.
Proof.
  intros Hbad. rewrite <- gemv_test in Hbad. apply not_true_is_false in Hbad.
  unfold BLAS_Add_Mat_x_Vec, BLAS_Add_Mat_x_Vec_eigen, BLAS_Add_Mat_x_Vec_cblas.
  rewrite Hbad. by destruct DFTD4_USE_EIGEN.
Qed.

(** Every other call reaches the library, whatever [Transpose] says and
    whatever the sizes are: if it comes back, it comes back with
    [EXIT_SUCCESS] and one more library call on the log. *)
Lemma gemv_passed_on (DFTD4_USE_EIGEN : bool) C A V Transpose alpha m m' :
  gemv_conformable false C A V →
  final (BLAS_Add_Mat_x_Vec DFTD4_USE_EIGEN C A V Transpose alpha m) = Some m' →
  BLAS_Add_Mat_x_Vec DFTD4_USE_EIGEN C A V Transpose alpha m = Returned EXIT_SUCCESS m'
  ∧ arrays m' = arrays m
  ∧ calls m' = calls m ++ [if DFTD4_USE_EIGEN then call_eigen_product else call_cblas_dgemv].
Proof.
  intros Hok%gemv_test.
  unfold BLAS_Add_Mat_x_Vec, BLAS_Add_Mat_x_Vec_eigen, BLAS_Add_Mat_x_Vec_cblas.
  rewrite Hok. unfold invoke.
  destruct DFTD4_USE_EIGEN, Transpose; simpl;
    match goal with |- context [match ?k with Ok _ => _ | Err _ => _ end] => destruct k end;
    simpl; intros [= <-]; done.
Qed.

(** X4.  With [A] as stored fitting [C] and [V], either no transposition
    or a square [A], and, in the vendor body, an [A] with at least one
    column (its column count is the leading dimension handed to
    [cblas_dgemv], which must not be 0), the library call is inside its
    contract and stays inside the three buffers: the call returns
    [EXIT_SUCCESS] and has written to nothing but the [N] doubles of [C]. *)
Theorem gemv_carried_out (DFTD4_USE_EIGEN : bool) C A V Transpose alpha m :
  gemv_conformable false C A V →
  Transpose = false ∨ TMatrix.rows A = TMatrix.cols A →
  DFTD4_USE_EIGEN = true ∨ 0 < TMatrix.cols A →
  matrix_in (heap m) A → vector_in (heap m) V → vector_in (heap m) C →
  ∃ h', BLAS_Add_Mat_x_Vec DFTD4_USE_EIGEN C A V Transpose alpha m =
          Returned EXIT_SUCCESS
            (Machine h' (arrays m)
               (calls m ++ [if DFTD4_USE_EIGEN then call_eigen_product else call_cblas_dgemv]))
        ∧ touches_only (TVector.p C) (λ t, t < TVector.N C) (heap m) h'.
Proof.
  intros Hok Hsq Hlda (a & Ha & Hla) (v & Hv & Hlv) (c & Hc & Hlc).
  unfold BLAS_Add_Mat_x_Vec, BLAS_Add_Mat_x_Vec_eigen, BLAS_Add_Mat_x_Vec_cblas.
  rewrite (proj2 (gemv_test C A V) Hok).
  destruct Hok as [Hr Hco]. unfold op_rows, op_cols in *.
  destruct A as [rA cA pA], V as [nV pV], C as [nC pC]. simpl in *.
  assert (Hsq' : Transpose = true → rA = cA) by (destruct Hsq; congruence).
  assert (Hlda' : DFTD4_USE_EIGEN = false → 0 < cA) by (destruct Hlda; congruence).
  destruct DFTD4_USE_EIGEN, Transpose; simpl;
    try specialize (Hsq' eq_refl); try specialize (Hlda' eq_refl);
    unfold invoke, Eigen.add_product, Eigen.rows, Eigen.cols; simpl;
    try (rewrite decide_True by (repeat split; congruence));
    try (rewrite cblas_dgemv_accepted by lia);
    match goal with
    | |- context [muladd ?M ?N ?K ?al ?A ?ia ?B ?ib ?be ?C ?ic] =>
        destruct (muladd_total M N K al A ia B ib be C ic (heap m) a v c Ha Hv Hc)
          as [t Ht];
        [ intros; unfold Eigen.coeff; simpl; nia
        | intros; unfold Eigen.coeff; simpl; nia
        | intros; unfold Eigen.coeff; simpl; nia
        | assert (Htouch : touches_only pC (λ t, t < nC) (heap m) t)
            by (eapply touches_only_weaken; [|exact (muladd_touches _ _ _ _ _ _ _ _ _ _ _ _ _ Ht)];
                intros u (i & j & Hi & Hj & ->); unfold Eigen.coeff; simpl; nia);
          first
            [ rewrite Ht; by exists t
            | edestruct (routine_carried_out) as (h' & Hrun & Hh');
              [exact Ht | exact Htouch | rewrite Hrun; by exists h'] ] ]
    end.
Qed.

(** X15.  gemv has no test for empty operands, and the vendor body hands
    [A.cols] to [cblas_dgemv] as the leading dimension of [A]: a call that
    gets past the test with an [A] without columns, and so with an empty
    [V], asks the routine for a leading dimension of 0, which the routine
    refuses (argument 7 has to be at least 1).  The call is outside the
    contract of the library whatever the flag, [alpha] and the buffers
    are. *)
Theorem gemv_vendor_no_columns_illegal_lda C A V Transpose alpha m :
  TMatrix.rows A = TVector.N C → TMatrix.cols A = TVector.N V →
  TMatrix.cols A = 0 →
  BLAS_Add_Mat_x_Vec false C A V Transpose alpha m = Undefined (IllegalArgument 7).
Proof.
  intros Hr Hc H0.
  unfold BLAS_Add_Mat_x_Vec, BLAS_Add_Mat_x_Vec_cblas.
  rewrite (proj2 (gemv_test C A V)) by done.
  unfold invoke. by destruct Transpose; rewrite cblas_dgemv_refused by auto.
Qed.

(** ** What a call can change *)

Lemma invoke_changes_at_most c k pC idx m :
  (∀ h', k (heap m) = Ok h' → touches_only pC idx (heap m) h') →
  changes_at_most pC m (invoke c k m (Returned EXIT_SUCCESS)).
Proof.
  intros Hk. unfold invoke. destruct (k (heap m)) as [h'|f] eqn:Hrun; simpl; [|done].
  split; [done|]. split; [|done].
  eapply touches_only_weaken; [|by apply Hk]. done.
Qed.

Lemma changes_at_most_unchanged pC rc m : changes_at_most pC m (Returned rc m).
Proof. split; [done|]. split; [apply touches_only_refl | done]. Qed.

(** X1.  A call of gemv without transposition, or on a square [A], that
    comes back has left the [lapack_int] arrays and every buffer other than
    that of [C] as they were, has changed the length of no buffer, and has
    changed nothing at all when it comes back with [EXIT_FAILURE]; in both
    bodies.  Transposed calls on an [A] that is not square are left out:
    they are the calls that leave the buffer of [C], and where the double
    behind it belongs to another object the memory of one block per buffer
    does not say what becomes of it. *)
Theorem gemv_changes_at_most (DFTD4_USE_EIGEN : bool) C A V Transpose alpha m :
  Transpose = false ∨ TMatrix.rows A = TMatrix.cols A →
  changes_at_most (TVector.p C) m
    (BLAS_Add_Mat_x_Vec DFTD4_USE_EIGEN C A V Transpose alpha m).
Proof.
  intros _.
  unfold BLAS_Add_Mat_x_Vec, BLAS_Add_Mat_x_Vec_eigen, BLAS_Add_Mat_x_Vec_cblas.
  destruct DFTD4_USE_EIGEN, (_ && _), Transpose; simpl;
    try apply changes_at_most_unchanged;
    eapply invoke_changes_at_most; intros h';
    unfold Eigen.add_product, cblas_dgemv;
    first [ apply routine_touches; intros t; apply muladd_touches
          | case_decide; [apply muladd_touches | discriminate] ].
Qed.

(** X2.  Whatever its arguments, a call of gemm that comes back has left
    the [lapack_int] arrays and every buffer other than that of [C] as they
    were, has changed the length of no buffer, and has changed nothing at
    all when it comes back with [EXIT_FAILURE]; a call that ends the
    process has changed nothing either; in both bodies. *)
Theorem gemm_changes_at_most (DFTD4_USE_EIGEN : bool) C A B TransposeA TransposeB alpha m :
  changes_at_most (TMatrix.p C) m
    (BLAS_Add_Mat_x_Mat DFTD4_USE_EIGEN C A B TransposeA TransposeB alpha m).
Proof.
  unfold BLAS_Add_Mat_x_Mat, BLAS_Add_Mat_x_Mat_eigen, BLAS_Add_Mat_x_Mat_cblas.
  destruct DFTD4_USE_EIGEN, (size_0 C A B), TransposeA, TransposeB; simpl;
    try apply changes_at_most_unchanged; try done;
    match goal with |- context [if ?t then _ else _] => destruct t end; simpl;
    try apply changes_at_most_unchanged; try done;
    eapply invoke_changes_at_most; intros h';
    unfold Eigen.add_product, cblas_dgemm;
    first [ apply routine_touches; intros t; apply muladd_touches
          | case_decide; [apply muladd_touches | discriminate] ].
Qed.

(** ** gemv against the contract *)







(** ** gemm against the contract *)


(** ** Inversion *)

Section InversionFacts.
Context (K : numerics).


(** The vendor body on a square matrix, one library call at a time. *)
Lemma invert_cblas_square a s buf :
  TMatrix.rows a = TMatrix.cols a →
  region (heap s) (TMatrix.p a) (TMatrix.rows a * TMatrix.cols a) = Ok buf →
  let ipiv := fresh (dom (arrays s)) in
  let '(buf1, piv, info1) :=
    LAPACKE_dgetrf K (TMatrix.rows a) (TMatrix.cols a) buf (TMatrix.cols a) in
  let s1 := Machine (write_region (heap s) (TMatrix.p a) buf1) (<[ipiv := piv]> (arrays s))
              (calls s ++ [call_LAPACKE_dgetrf]) in
  BLAS_InvertMatrix_cblas K a s =
    if negb (info1 =? 0)%Z then Returned EXIT_FAILURE s1
    else dgetri K (TMatrix.rows a) (TMatrix.p a) (TMatrix.cols a) ipiv s1
           (λ info s,
              if negb (info =? 0)%Z then Returned EXIT_FAILURE s
              else Returned EXIT_SUCCESS (delete_array ipiv s)).
Proof.
  intros Hsq Hbuf ipiv. unfold BLAS_InvertMatrix_cblas, neq.
  rewrite (proj2 (Nat.eqb_eq _ _) Hsq). simpl.
  unfold dgetrf. simpl. rewrite Hbuf. fold ipiv. rewrite lookup_insert_eq.
  destruct (LAPACKE_dgetrf K _ _ buf _) as [[buf1 piv] info1].
  by rewrite insert_insert_eq.
Qed.


Lemma write_region_other h l new l' :
  l' ≠ l → write_region h l new !! l' = h !! l'.
Proof.
  intros Hne. unfold write_region. destruct (h !! l); [|done].
  by rewrite lookup_insert_ne.
Qed.

Lemma region_write_region h l n buf new :
  region h l n = Ok buf → length new = length buf →
  region (write_region h l new) l n = Ok new.
Proof.
  unfold region, write_region. destruct (h !! l) as [b|] eqn:Hb.
  - case_decide; [|done]. intros [= <-] Hlen.
    rewrite length_take in Hlen.
    rewrite lookup_insert_eq. rewrite decide_True by (rewrite length_app, length_drop; lia).
    f_equal. rewrite take_app_le by lia. apply take_ge. lia.
  - case_decide; [|done]. intros [= <-] Hlen. rewrite Hb.
    by destruct new.
Qed.

Ltac case_region :=
  match goal with
  | |- context [region ?h ?l ?n] => destruct (region h l n) as [?buf|?f]; [|done]
  end.

(** X12.  What an inversion can change.  In both bodies, whatever the
    libraries do: the call never ends the process; when it comes back, every
    buffer other than the matrix's own is as it was, every [lapack_int]
    array that was live still is, with its content, and the library calls
    issued are a prefix of [inverse()] in the Eigen body, of [LAPACKE_dgetrf]
    followed by [LAPACKE_dgetri] in the vendor body. *)
Theorem invert_changes_at_most (DFTD4_USE_EIGEN : bool) (a : TMatrix.t) (s : machine) :
  match BLAS_InvertMatrix K DFTD4_USE_EIGEN a s with
  | Returned rc s' =>
      (∀ l, l ≠ TMatrix.p a → heap s' !! l = heap s !! l)
      ∧ (∀ l, is_Some (arrays s !! l) → arrays s' !! l = arrays s !! l)
      ∧ ∃ issued, calls s' = calls s ++ issued
          ∧ issued `prefix_of`
              (if DFTD4_USE_EIGEN then [call_eigen_inverse]
               else [call_LAPACKE_dgetrf; call_LAPACKE_dgetri])
  | Exited _ _ => False
  | Undefined _ => True
  end.
Proof.
  assert (Hnothing : ∀ rc,
    match Returned rc s with
    | Returned rc s' =>
        (∀ l, l ≠ TMatrix.p a → heap s' !! l = heap s !! l)
        ∧ (∀ l, is_Some (arrays s !! l) → arrays s' !! l = arrays s !! l)
        ∧ ∃ issued, calls s' = calls s ++ issued
            ∧ issued `prefix_of`
                (if DFTD4_USE_EIGEN then [call_eigen_inverse]
                 else [call_LAPACKE_dgetrf; call_LAPACKE_dgetri])
    | Exited _ _ => False
    | Undefined _ => True
    end).
  { intros rc. split; [done|]. split; [done|]. exists []. split.
    - by rewrite app_nil_r.
    - apply prefix_nil. }
  assert (Hfresh : arrays s !! fresh (dom (arrays s)) = None).
  { apply not_elem_of_dom. apply is_fresh. }
  assert (Hlive : ∀ l, is_Some (arrays s !! l) → l ≠ fresh (dom (arrays s))).
  { intros l [x Hx] ->. congruence. }
  unfold BLAS_InvertMatrix, BLAS_InvertMatrix_eigen, BLAS_InvertMatrix_cblas.
  destruct DFTD4_USE_EIGEN.
  - destruct (neq _ _); [exact (Hnothing EXIT_FAILURE)|].
    case_region.
    destruct (eigen_inverse K _ _ buf) as [buf'|]; simpl.
    + split; [intros l Hl; by apply write_region_other|]. split; [done|].
      by exists [call_eigen_inverse].
    + split; [done|]. split; [done|]. by exists [call_eigen_inverse].
  - destruct (neq _ _); [exact (Hnothing EXIT_FAILURE)|]. simpl.
    unfold dgetrf. simpl. case_region.
    rewrite lookup_insert_eq.
    destruct (LAPACKE_dgetrf K _ _ buf _) as [[buf1 piv] info1].
    destruct (info1 =? 0)%Z; simpl.
    2:{ split; [intros l Hl; by apply write_region_other|]. split.
        - intros l Hl. rewrite insert_insert_eq. apply lookup_insert_ne.
          by apply not_eq_sym, Hlive.
        - exists [call_LAPACKE_dgetrf]. split; [done|]. by exists [call_LAPACKE_dgetri]. }
    unfold dgetri. simpl. case_region.
    rewrite insert_insert_eq, lookup_insert_eq.
    match goal with
    | |- context [LAPACKE_dgetri K ?n ?b ?ld ?pv] =>
        destruct (LAPACKE_dgetri K n b ld pv) as [buf2 info2]
    end.
    destruct (info2 =? 0)%Z; simpl.
    + split; [intros l Hl; by rewrite !write_region_other|]. split.
      * intros l Hl. rewrite delete_insert_eq. apply lookup_delete_ne.
        by apply not_eq_sym, Hlive.
      * exists [call_LAPACKE_dgetrf; call_LAPACKE_dgetri]. by rewrite <- app_assoc.
    + split; [intros l Hl; by rewrite !write_region_other|]. split.
      * intros l Hl. apply lookup_insert_ne. by apply not_eq_sym, Hlive.
      * exists [call_LAPACKE_dgetrf; call_LAPACKE_dgetri]. by rewrite <- app_assoc.
Qed.

(** X13.  The vendor body on a square matrix whose buffer holds its
    entries, with a factorization that keeps the size of the buffer: the
    call returns [EXIT_SUCCESS] exactly when [LAPACKE_dgetrf] and
    [LAPACKE_dgetri] both report [0]; [LAPACKE_dgetri] is given what
    [LAPACKE_dgetrf] left in the buffer together with its pivots; on success
    the buffer holds what [LAPACKE_dgetri] left, the pivot array is gone
    and the two calls are logged in that order. *)
Theorem invert_vendor_runs_both_steps (a : TMatrix.t) (s : machine) (buf : list float) :
  TMatrix.rows a = TMatrix.cols a →
  region (heap s) (TMatrix.p a) (TMatrix.rows a * TMatrix.cols a) = Ok buf →
  let f := LAPACKE_dgetrf K (TMatrix.rows a) (TMatrix.cols a) buf (TMatrix.cols a) in
  let r := LAPACKE_dgetri K (TMatrix.rows a) f.1.1 (TMatrix.cols a) f.1.2 in
  length f.1.1 = length buf →
  ((∃ s', BLAS_InvertMatrix K false a s = Returned EXIT_SUCCESS s')
   ↔ f.2 = 0%Z ∧ r.2 = 0%Z)
  ∧ (f.2 = 0%Z → r.2 = 0%Z →
     BLAS_InvertMatrix K false a s =
       Returned EXIT_SUCCESS
         (Machine (write_region (write_region (heap s) (TMatrix.p a) f.1.1) (TMatrix.p a) r.1)
            (arrays s) (calls s ++ [call_LAPACKE_dgetrf; call_LAPACKE_dgetri]))).
Proof.
  intros Hsq Hbuf f r Hlen. unfold BLAS_InvertMatrix.
  pose proof (invert_cblas_square a s buf Hsq Hbuf) as Hrun. simpl in Hrun.
  fold f in Hrun. subst r. destruct f as [[buf1 piv] info1]. simpl in *.
  rewrite Hrun. clear Hrun.
  assert (Hfresh : arrays s !! fresh (dom (arrays s)) = None).
  { apply not_elem_of_dom. apply is_fresh. }
  destruct (Z.eqb_spec info1 0) as [->|Hne1]; simpl.
  2:{ split; [|done]. split; [intros [s' [=]] | intros [? _]; done]. }
  unfold dgetri. simpl.
  rewrite (region_write_region _ _ _ buf buf1 Hbuf Hlen), lookup_insert_eq.
  destruct (LAPACKE_dgetri K _ buf1 _ piv) as [buf2 info2]. simpl.
  destruct (Z.eqb_spec info2 0) as [->|Hne2]; simpl.
  - assert (Hdel : delete (fresh (dom (arrays s))) (<[fresh (dom (arrays s)) := piv]> (arrays s))
                   = arrays s).
    { rewrite delete_insert_eq. by apply delete_id. }
    unfold delete_array. simpl. rewrite Hdel, <- app_assoc. simpl.
    split; [split; eauto|done].
  - split; [|done]. split; [intros [s' [=]] | intros [_ ?]; done].
Qed.

End InversionFacts.

(** ** When the vendor body of gemm ends the process *)

(** The kernel stops at a missing element and at nothing else. *)
Lemma for_upto_fault {T : Type} (P : fault → Prop) n (body : nat → T → res T) s f :
  (∀ i t g, body i t = Err g → P g) → for_upto n body s = Err f → P f.
Proof.
  intros Hbody. induction n as [|n IH]; simpl; [discriminate|].
  destruct (for_upto n body s) as [t|g]; simpl.
  - apply Hbody.
  - intros [= <-]. by apply IH.
Qed.

Lemma load_fault h l i f : load h l i = Err f → f = OutOfBounds l i.
Proof. unfold load. destruct (h !! l) as [b|]; [destruct (b !! i)|]; congruence. Qed.

Lemma store_fault h l i x f : store h l i x = Err f → f = OutOfBounds l i.
Proof. unfold store. destruct (h !! l); [case_decide|]; congruence. Qed.

Lemma dot_fault h A ia B ib n f :
  dot h A ia B ib n = Err f → ∃ l i, f = OutOfBounds l i.
Proof.
  induction n as [|n IH]; simpl; [discriminate|].
  destruct (dot h A ia B ib n) as [acc|g]; simpl; [|intros [= <-]; by apply IH].
  destruct (load h A (ia n)) as [x|g] eqn:Hx; simpl; [|intros [= <-]; eauto using load_fault].
  destruct (load h B (ib n)) as [y|g] eqn:Hy; simpl; [discriminate|].
  intros [= <-]. eauto using load_fault.
Qed.

Lemma muladd_fault M N K alpha A ia B ib beta C ic h f :
  muladd M N K alpha A ia B ib beta C ic h = Err f → ∃ l i, f = OutOfBounds l i.
Proof.
  unfold muladd.
  apply (for_upto_fault (λ f, ∃ l i, f = OutOfBounds l i)). intros i t g.
  apply (for_upto_fault (λ f, ∃ l i, f = OutOfBounds l i)). intros j u g'.
  destruct (dot h A (ia i) B (λ k, ib k j) K) as [d|e] eqn:Hd; simpl.
  2:{ intros [= <-]. eauto using dot_fault. }
  destruct (load u C (ic i j)) as [c|e] eqn:Hc; simpl.
  2:{ intros [= <-]. eauto using load_fault. }
  intros Hst. eauto using store_fault.
Qed.

(** A call of the vendor body that its tests let through is a call of
    [cblas_dgemm] with arguments the routine accepts. *)
Lemma gemm_vendor_passed_on C A B TransposeA TransposeB alpha m :
  size_0 C A B = false → gemm_conformable TransposeA TransposeB C A B →
  ∃ quick M N K ia ib ic,
    BLAS_Add_Mat_x_Mat false C A B TransposeA TransposeB alpha m =
      invoke call_cblas_dgemm
        (routine None quick
           (muladd M N K alpha (TMatrix.p A) ia (TMatrix.p B) ib 1 (TMatrix.p C) ic))
        m (Returned EXIT_SUCCESS).
Proof.
  intros Hsz Hfit.
  pose proof (proj1 (size_0_false C A B) Hsz) as (HdA & HdB & HdC).
  unfold BLAS_Add_Mat_x_Mat, BLAS_Add_Mat_x_Mat_cblas. rewrite Hsz.
  unfold gemm_conformable, op_rows, op_cols, degenerate in *.
  destruct TransposeA, TransposeB; simpl;
    rewrite (proj2 (gemm_test_false _ _ _ _ _ _)) by done;
    eexists _, _, _, _, _, _, _; unfold invoke;
    by rewrite cblas_dgemm_accepted by lia.
Qed.

(** X14.  The vendor body of gemm ends the process exactly when an operand
    has a zero dimension or the operands do not fit under the flags, which
    are the calls its own tests turn down.  Every other call hands
    [cblas_dgemm] leading dimensions the routine accepts, so no call gets
    to the error handler of the library. *)
Theorem gemm_vendor_exits_exactly_when_turned_down (C A B : TMatrix.t)
    (TransposeA TransposeB : bool) (alpha : float) (m : machine) :
  ((∃ st m', BLAS_Add_Mat_x_Mat false C A B TransposeA TransposeB alpha m = Exited st m')
   ↔ degenerate A ∨ degenerate B ∨ degenerate C
     ∨ ¬ gemm_conformable TransposeA TransposeB C A B)
  ∧ (∀ arg, BLAS_Add_Mat_x_Mat false C A B TransposeA TransposeB alpha m
            ≠ Undefined (IllegalArgument arg)).
Proof.
  destruct (decide (size_0 C A B = true
                    ∨ ¬ gemm_conformable TransposeA TransposeB C A B)) as [Hbad|Hok].
  { rewrite (gemm_turned_down false) by done. split; [|done].
    split; [|eauto]. intros _. rewrite size_0_true in Hbad. tauto. }
  assert (Hsz : size_0 C A B = false) by (destruct (size_0 C A B); tauto).
  assert (Hfit : gemm_conformable TransposeA TransposeB C A B).
  { destruct (decide (gemm_conformable TransposeA TransposeB C A B)); tauto. }
  destruct (gemm_vendor_passed_on C A B TransposeA TransposeB alpha m Hsz Hfit)
    as (quick & M & N & K & ia & ib & ic & ->).
  unfold invoke, routine. split.
  - split.
    + intros (st & m' & Hexit). revert Hexit. by destruct (muladd _ _ _ _ _ _ _ _ _ _ _ _).
    + intros Hbad. exfalso. apply Hok. rewrite size_0_true. tauto.
  - intros arg.
    destruct (muladd _ _ _ _ _ _ _ _ _ _ _ _) as [t|f] eqn:Hk; simpl; [done|].
    intros [= ->]. apply muladd_fault in Hk as (l & i & [=]).
Qed.


(** ** gemv and the transpose flag *)

(** C1.  The test does not follow the flag.  For an [A] that is not square
    and [Transpose] set, in both bodies: a call whose [C] and [V] fit the
    transposed matrix ([A.cols] entries in [C], [A.rows] in [V]) is turned
    down with [EXIT_FAILURE]; a call whose [C] and [V] fit [A] as stored,
    and so do not fit the transposed matrix, gets past the test and never
    comes back with [EXIT_FAILURE]. *)
Theorem gemv_test_ignores_transpose (DFTD4_USE_EIGEN : bool) (C : TVector.t)
    (A : TMatrix.t) (V : TVector.t) (alpha : float) (m : machine) :
  TMatrix.rows A ≠ TMatrix.cols A →
  (gemv_conformable true C A V →
   BLAS_Add_Mat_x_Vec DFTD4_USE_EIGEN C A V true alpha m = Returned EXIT_FAILURE m)
  ∧ (gemv_conformable false C A V →
     ¬ gemv_conformable true C A V
     ∧ ∀ m', BLAS_Add_Mat_x_Vec DFTD4_USE_EIGEN C A V true alpha m
             ≠ Returned EXIT_FAILURE m').
Proof.
  intros Hns. unfold gemv_conformable, op_rows, op_cols. split.
  - intros [Hc Hr]. apply gemv_turned_down.
    unfold gemv_conformable, op_rows, op_cols. intros [Hr' _]. congruence.
  - intros [Hr Hc]. split; [intros [Hc' _]; congruence|].
    intros m' Hrun.
    destruct (gemv_passed_on DFTD4_USE_EIGEN C A V true alpha m m') as [Hok _].
    + by split.
    + by rewrite Hrun.
    + rewrite Hok in Hrun. discriminate.
Qed.

(** C9.  Every transposed call of the vendor body that gets past the test
    with an [A] that has more columns than rows leaves the buffer of [C]:
    [cblas_dgemv] is told that [A] is [A.rows] by [A.cols] and asked for
    the transposed product, whose result has [A.cols] entries, and the
    buffer of [C] ends after [A.rows] doubles. *)
Theorem gemv_vendor_transposed_overruns_C (C : TVector.t) (A : TMatrix.t) (V : TVector.t)
    (alpha : float) (m : machine) (a v c : list float) :
  TMatrix.rows A = TVector.N C → TMatrix.cols A = TVector.N V →
  TMatrix.rows A < TMatrix.cols A →
  heap m !! TMatrix.p A = Some a → TMatrix.rows A * TMatrix.cols A ≤ length a →
  heap m !! TVector.p V = Some v → TVector.N V ≤ length v →
  heap m !! TVector.p C = Some c → length c = TVector.N C →
  BLAS_Add_Mat_x_Vec false C A V true alpha m
  = Undefined (OutOfBounds (TVector.p C) (TVector.N C)).
Proof.
  intros Hr Hco Hlt Ha Hla Hv Hlv Hc Hlc.
  unfold BLAS_Add_Mat_x_Vec, BLAS_Add_Mat_x_Vec_cblas.
  rewrite (proj2 (gemv_test C A V)) by done.
  unfold invoke. rewrite cblas_dgemv_accepted by lia.
  rewrite (routine_Err _ _ _ (OutOfBounds (TVector.p C) (TVector.N C))); [done|].
  rewrite <- Hlc.
  apply (muladd_column_overrun _ _ _ _ _ _ _ _ _ _ _ a v c Ha Hv Hc).
  - lia.
  - intros. simpl. lia.
  - intros i k Hi Hk. simpl. nia.
Qed.

(** X8.  A transposed call of the vendor body that gets past the test with
    an [A] that has more rows than columns, at least one column, and an
    [alpha] other than 0 hands [cblas_dgemv] a [V] that is too short: the
    transposed product takes [A.rows] entries of [V], and the buffer of
    [V] ends after [A.cols] doubles.  With [alpha] other than 0 and no
    dimension 0 the routine does not return at once, and every entry the
    product takes is read. *)
Theorem gemv_vendor_transposed_overreads_V (C : TVector.t) (A : TMatrix.t) (V : TVector.t)
    (alpha : float) (m : machine) (a v : list float) :
  TMatrix.rows A = TVector.N C → TMatrix.cols A = TVector.N V →
  0 < TMatrix.cols A < TMatrix.rows A →
  PrimFloat.eqb alpha 0 = false →
  heap m !! TMatrix.p A = Some a → TMatrix.rows A * TMatrix.cols A ≤ length a →
  heap m !! TVector.p V = Some v → length v = TVector.N V →
  BLAS_Add_Mat_x_Vec false C A V true alpha m
  = Undefined (OutOfBounds (TVector.p V) (TVector.N V)).
Proof.
  intros Hr Hco Hlt _ Ha Hla Hv Hlv.
  unfold BLAS_Add_Mat_x_Vec, BLAS_Add_Mat_x_Vec_cblas.
  rewrite (proj2 (gemv_test C A V)) by done.
  unfold invoke. rewrite cblas_dgemv_accepted by lia.
  rewrite (routine_Err _ _ _ (OutOfBounds (TVector.p V) (TVector.N V))); [done|].
  rewrite <- Hlv.
  apply (muladd_column_overread _ _ _ _ _ _ _ _ _ _ _ a v Ha Hv).
  - lia.
  - lia.
  - intros. simpl. lia.
  - intros k Hk. simpl. nia.
Qed.

(** ** gemm and operands that do not fit *)

(** C2.  The vendor body ends the process.  On an empty operand, and on
    dimensions that do not fit the transpose combination, the vendor body
    calls [exit(EXIT_FAILURE)] where the Eigen body returns [EXIT_FAILURE]
    to its caller. *)
Theorem gemm_vendor_exits (C A B : TMatrix.t) (TransposeA TransposeB : bool)
    (alpha : float) (m : machine) :
  degenerate A ∨ degenerate B ∨ degenerate C
  ∨ ¬ gemm_conformable TransposeA TransposeB C A B →
  BLAS_Add_Mat_x_Mat false C A B TransposeA TransposeB alpha m = Exited EXIT_FAILURE m
  ∧ BLAS_Add_Mat_x_Mat true C A B TransposeA TransposeB alpha m = Returned EXIT_FAILURE m.
Proof.
  intros Hbad.
  assert (size_0 C A B = true ∨ ¬ gemm_conformable TransposeA TransposeB C A B) as Hbad'.
  { rewrite size_0_true. tauto. }
  split.
  - by rewrite (gemm_turned_down false).
  - by rewrite (gemm_turned_down true).
Qed.

(** ** Evaluations *)

Section Evaluations.
Local Open Scope float_scope.

(** C5.  With [Transpose] set, [A = [[1, 2]]], [V = [1]], [C = [0, 0]] and
    [alpha = 1] the shapes fit the transposed matrix and the contract asks
    for [C = [1, 2]]; both bodies return [EXIT_FAILURE] and leave [C] as
    it was. *)
Theorem gemv_transposed_product_not_formed (DFTD4_USE_EIGEN : bool) :
  let C := TVector.mk 2 at_C in
  let A := TMatrix.mk 1 2 at_A in
  let V := TVector.mk 1 at_V in
  gemv_conformable true C A V
  ∧ gemv_contract true 1 A [1; 2] [1] [0; 0] = [1; 2]
  ∧ BLAS_Add_Mat_x_Vec DFTD4_USE_EIGEN C A V true 1 (holding [0; 0] [1; 2] [1])
    = Returned EXIT_FAILURE (holding [0; 0] [1; 2] [1]).
Proof.
  simpl. split; [by vm_compute|]. split; [by vm_compute|].
  by destruct DFTD4_USE_EIGEN; vm_compute.
Qed.

(** The scenario of the contract, where [A] is symmetric: [A] the 2 by 2
    identity, [V = [3, 4]] and [alpha = 1] add 3 and 4 to the entries of
    [C], in both bodies and with either value of the flag. *)
Theorem gemv_identity_scenario (DFTD4_USE_EIGEN Transpose : bool) (c0 c1 : float) :
  BLAS_Add_Mat_x_Vec DFTD4_USE_EIGEN (TVector.mk 2 at_C) (TMatrix.mk 2 2 at_A)
    (TVector.mk 2 at_V) Transpose 1 (holding [c0; c1] [1; 0; 0; 1] [3; 4])
  = Returned EXIT_SUCCESS
      (Machine {[ at_C := [c0 + 3; c1 + 4]; at_A := [1; 0; 0; 1];
                  at_V := [3; 4] ]} ∅
         [if DFTD4_USE_EIGEN then call_eigen_product else call_cblas_dgemv]).
Proof. by destruct DFTD4_USE_EIGEN, Transpose; vm_compute. Qed.

(** The Eigen body maps the row-major buffer of [A] as a column-major
    matrix.  With [A = [[1, 2], [3, 4]]], [V = [1, 0]] and no transposition
    the contract and the vendor body give [C = [1, 3]], the Eigen body gives
    [C = [1, 2]]. *)
Lemma gemv_eigen_reads_columns :
  let C := TVector.mk 2 at_C in
  let A := TMatrix.mk 2 2 at_A in
  let V := TVector.mk 2 at_V in
  let m := holding [0; 0] [1; 2; 3; 4] [1; 0] in
  gemv_contract false 1 A [1; 2; 3; 4] [1; 0] [0; 0] = [1; 3]
  ∧ heap <$> final (BLAS_Add_Mat_x_Vec false C A V false 1 m)
    = Some (<[at_C := [1; 3]]> (heap m))
  ∧ heap <$> final (BLAS_Add_Mat_x_Vec true C A V false 1 m)
    = Some (<[at_C := [1; 2]]> (heap m)).
Proof. by vm_compute. Qed.

(** When the allocation behind the one entry of [C] is two doubles long,
    the call of the vendor body with [Transpose] set and [A] of shape 1 by
    2 comes back, and the second double, which is no entry of [C], has
    changed from 7 to 9. *)
Lemma gemv_transposed_overwrites_next_double :
  BLAS_Add_Mat_x_Vec false (TVector.mk 1 at_C) (TMatrix.mk 1 2 at_A) (TVector.mk 2 at_V)
    true 1 (holding [0; 7] [1; 2] [1; 1])
  = Returned EXIT_SUCCESS
      (Machine {[ at_C := [1; 9]; at_A := [1; 2]; at_V := [1; 1] ]} ∅ [call_cblas_dgemv]).
Proof. by vm_compute. Qed.

(** C6, the input on which it fails.  [A] of shape 2 by 0, [B] of shape
    0 by 2 and [C] of shape 2 by 2 have the dimensions the untransposed
    product asks for, and the Eigen body returns [EXIT_FAILURE]: the test
    for empty operands comes first. *)
Lemma gemm_conformable_but_empty :
  let C := TMatrix.mk 2 2 at_C in
  let A := TMatrix.mk 2 0 at_A in
  let B := TMatrix.mk 0 2 at_B in
  let m := holding [0; 0; 0; 0] [] [] in
  gemm_conformable false false C A B
  ∧ BLAS_Add_Mat_x_Mat true C A B false false 1 m = Returned EXIT_FAILURE m.
Proof. by vm_compute. Qed.


End Evaluations.

(** ** Empty operands *)


(** ** gemm and the four transpose combinations *)

(** C6, as the code has it.  For operands none of which is empty and whose
    buffers hold [rows * cols] doubles, each of the four combinations of
    [TransposeA] and [TransposeB] returns [EXIT_SUCCESS] exactly when the
    inner dimensions of [op(A)] and [op(B)] agree and their outer
    dimensions are the row and column counts of [C]; the Eigen body returns
    [EXIT_FAILURE], with nothing changed, in every other case. *)
Theorem gemm_succeeds_iff_conformable (DFTD4_USE_EIGEN : bool) (C A B : TMatrix.t)
    (TransposeA TransposeB : bool) (alpha : float) (m : machine) :
  ¬ degenerate A → ¬ degenerate B → ¬ degenerate C →
  matrix_in (heap m) A → matrix_in (heap m) B → matrix_in (heap m) C →
  ((∃ m', BLAS_Add_Mat_x_Mat DFTD4_USE_EIGEN C A B TransposeA TransposeB alpha m
          = Returned EXIT_SUCCESS m')
   ↔ gemm_conformable TransposeA TransposeB C A B)
  ∧ (DFTD4_USE_EIGEN = true → ¬ gemm_conformable TransposeA TransposeB C A B →
     BLAS_Add_Mat_x_Mat DFTD4_USE_EIGEN C A B TransposeA TransposeB alpha m
     = Returned EXIT_FAILURE m).
Proof.
  intros HA HB HC HinA HinB HinC.
  assert (Hsz : size_0 C A B = false) by by apply size_0_false.
  split; [split|].
  - intros [m' Hrun].
    destruct (decide (gemm_conformable TransposeA TransposeB C A B)) as [|Hbad]; [done|].
    rewrite (gemm_turned_down DFTD4_USE_EIGEN C A B TransposeA TransposeB alpha m) in Hrun
      by auto.
    by destruct DFTD4_USE_EIGEN.
  - intros Hok.
    destruct (gemm_carried_out DFTD4_USE_EIGEN C A B TransposeA TransposeB alpha m
                Hsz Hok HinA HinB HinC) as (h' & -> & _).
    eauto.
  - intros -> Hbad. by rewrite gemm_turned_down by auto.
Qed.

Section InversionClaims.
Context (K : numerics).

(** C8.  A matrix that is not square is turned down at once: the call
    returns [EXIT_FAILURE] and the machine is the one it started from, so
    no library routine has been called, no array allocated and no double
    written.  This holds for both bodies. *)
Theorem invert_rejects_non_square (DFTD4_USE_EIGEN : bool) (a : TMatrix.t) (s : machine) :
  TMatrix.rows a ≠ TMatrix.cols a →
  BLAS_InvertMatrix K DFTD4_USE_EIGEN a s = Returned EXIT_FAILURE s.
Proof.
  intros Hne. apply Nat.eqb_neq in Hne.
  unfold BLAS_InvertMatrix, BLAS_InvertMatrix_eigen, BLAS_InvertMatrix_cblas, neq.
  rewrite Hne. by destruct DFTD4_USE_EIGEN.
Qed.

(** C7.  On a square matrix whose buffer holds [rows * cols] doubles:
    when [LAPACKE_dgetrf] reports [info != 0] the vendor body returns
    [EXIT_FAILURE] and the factorization is the only library call it has
    made, [LAPACKE_dgetri] is not reached; when the evaluation of
    [inverse()] throws, the Eigen body returns [EXIT_FAILURE] after that
    one call. *)
Theorem invert_stops_at_failed_factorization (a : TMatrix.t) (s : machine) (buf : list float) :
  TMatrix.rows a = TMatrix.cols a →
  region (heap s) (TMatrix.p a) (TMatrix.rows a * TMatrix.cols a) = Ok buf →
  ((LAPACKE_dgetrf K (TMatrix.rows a) (TMatrix.cols a) buf (TMatrix.cols a)).2 ≠ 0%Z →
   ∃ s', BLAS_InvertMatrix K false a s = Returned EXIT_FAILURE s'
         ∧ calls s' = calls s ++ [call_LAPACKE_dgetrf])
  ∧ (eigen_inverse K (TMatrix.rows a) (TMatrix.cols a) buf = None →
     ∃ s', BLAS_InvertMatrix K true a s = Returned EXIT_FAILURE s'
           ∧ calls s' = calls s ++ [call_eigen_inverse]
           ∧ heap s' = heap s).
Proof.
  intros Hsq Hbuf. split.
  - intros Hinfo. unfold BLAS_InvertMatrix.
    pose proof (invert_cblas_square K a s buf Hsq Hbuf) as Hrun. simpl in Hrun.
    destruct (LAPACKE_dgetrf K _ _ buf _) as [[buf1 piv] info1]. simpl in Hinfo.
    apply Z.eqb_neq in Hinfo. rewrite Hinfo in Hrun. simpl in Hrun.
    eexists. split; [exact Hrun | reflexivity].
  - intros Hthrow. unfold BLAS_InvertMatrix, BLAS_InvertMatrix_eigen, neq.
    rewrite (proj2 (Nat.eqb_eq _ _) Hsq). simpl. rewrite Hbuf, Hthrow.
    eexists. split; [reflexivity | split; reflexivity].
Qed.


(** C3.  What is left of the pivot array when the vendor body returns from
    a square matrix: the array it got from [new lapack_int[a.rows]] is
    released when the result is [EXIT_SUCCESS], and it is still allocated
    when the result is [EXIT_FAILURE], where [return] comes before
    [delete[] ipiv]. *)
Theorem invert_failure_keeps_pivot_array (a : TMatrix.t) (s s' : machine) (rc : Z) :
  TMatrix.rows a = TMatrix.cols a →
  BLAS_InvertMatrix K false a s = Returned rc s' →
  let ipiv := fresh (dom (arrays s)) in
  arrays s !! ipiv = None
  ∧ (rc = EXIT_SUCCESS → arrays s' = arrays s)
  ∧ (rc ≠ EXIT_SUCCESS → rc = EXIT_FAILURE ∧ is_Some (arrays s' !! ipiv)).
Proof.
  intros Hsq Hrun ipiv.
  assert (Hfresh : arrays s !! ipiv = None).
  { apply not_elem_of_dom. apply is_fresh. }
  split; [exact Hfresh|].
  unfold BLAS_InvertMatrix in Hrun.
  destruct (region (heap s) (TMatrix.p a) (TMatrix.rows a * TMatrix.cols a)) as [buf|f] eqn:Hbuf.
  2:{ unfold BLAS_InvertMatrix_cblas, neq in Hrun.
      rewrite (proj2 (Nat.eqb_eq _ _) Hsq) in Hrun. simpl in Hrun.
      unfold dgetrf in Hrun. simpl in Hrun. by rewrite Hbuf in Hrun. }
  pose proof (invert_cblas_square K a s buf Hsq Hbuf) as Hstep. simpl in Hstep.
  fold ipiv in Hstep.
  destruct (LAPACKE_dgetrf K _ _ buf _) as [[buf1 piv] info1].
  rewrite Hstep in Hrun. clear Hstep.
  destruct (info1 =? 0)%Z; simpl in Hrun.
  2:{ injection Hrun as <- <-. simpl. rewrite lookup_insert_eq.
      split; [discriminate | eauto]. }
  unfold dgetri in Hrun. simpl in Hrun.
  destruct (region _ _ _) as [buf'|f]; [|discriminate].
  rewrite lookup_insert_eq in Hrun.
  destruct (LAPACKE_dgetri K _ buf' _ piv) as [buf2 info2].
  destruct (info2 =? 0)%Z; simpl in Hrun; injection Hrun as <- <-; simpl.
  - split; [|done]. intros _. rewrite delete_insert_eq. by apply delete_id.
  - rewrite lookup_insert_eq. split; [discriminate | eauto].
Qed.

End InversionClaims.


(** ** The theorems above at concrete operands *)

Section Instances.
Local Open Scope float_scope.

Lemma invert_rejects_non_square_witness :
  BLAS_InvertMatrix (scripted 0 0 false) false (TMatrix.mk 1 2 at_A) (holding [] [1; 2] [])
  = Returned EXIT_FAILURE (holding [] [1; 2] [])
  ∧ BLAS_InvertMatrix (scripted 0 0 false) true (TMatrix.mk 1 2 at_A) (holding [] [1; 2] [])
    = Returned EXIT_FAILURE (holding [] [1; 2] []).
Proof.
  split; apply (invert_rejects_non_square (scripted 0 0 false)); simpl; lia.
Defined.

Lemma invert_stops_at_failed_factorization_witness :
  let K := scripted 1 0 true in
  let a := TMatrix.mk 1 1 at_A in
  let s := holding [] [0] [] in
  (∃ s', BLAS_InvertMatrix K false a s = Returned EXIT_FAILURE s'
         ∧ calls s' = calls s ++ [call_LAPACKE_dgetrf])
  ∧ (∃ s', BLAS_InvertMatrix K true a s = Returned EXIT_FAILURE s'
           ∧ calls s' = calls s ++ [call_eigen_inverse]
           ∧ heap s' = heap s).
Proof.
  intros K a s.
  destruct (invert_stops_at_failed_factorization K a s [0] eq_refl eq_refl) as [Hv He].
  split; [apply Hv; simpl; lia | apply He; reflexivity].
Defined.


Lemma invert_failure_keeps_pivot_array_witness :
  let a := TMatrix.mk 1 1 at_A in
  let s := holding [] [0] [] in
  let s1 := Machine (heap s) {[ 1%positive := [1%Z] ]} [call_LAPACKE_dgetrf] in
  let s2 := Machine (heap s) {[ 1%positive := [1%Z] ]}
              [call_LAPACKE_dgetrf; call_LAPACKE_dgetri] in
  arrays s !! 1%positive = None
  ∧ (BLAS_InvertMatrix (scripted 1 0 false) false a s = Returned EXIT_FAILURE s1
     ∧ is_Some (arrays s1 !! 1%positive))
  ∧ (BLAS_InvertMatrix (scripted 0 1 false) false a s = Returned EXIT_FAILURE s2
     ∧ is_Some (arrays s2 !! 1%positive)).
Proof.
  intros a s s1 s2.
  assert (Hrun1 : BLAS_InvertMatrix (scripted 1 0 false) false a s = Returned EXIT_FAILURE s1)
    by (vm_compute; reflexivity).
  assert (Hrun2 : BLAS_InvertMatrix (scripted 0 1 false) false a s = Returned EXIT_FAILURE s2)
    by (vm_compute; reflexivity).
  destruct (invert_failure_keeps_pivot_array (scripted 1 0 false) a s s1 EXIT_FAILURE
              eq_refl Hrun1) as (Hfresh & _ & Hkept1).
  destruct (invert_failure_keeps_pivot_array (scripted 0 1 false) a s s2 EXIT_FAILURE
              eq_refl Hrun2) as (_ & _ & Hkept2).
  split; [exact Hfresh|]. split.
  - split; [exact Hrun1|]. apply Hkept1. discriminate.
  - split; [exact Hrun2|]. apply Hkept2. discriminate.
Defined.

Lemma gemm_succeeds_iff_conformable_witness :
  let C := TMatrix.mk 1 1 at_C in
  let A := TMatrix.mk 1 2 at_A in
  let B := TMatrix.mk 2 1 at_B in
  let m := holding [5] [1; 2] [3; 4] in
  (∃ m', BLAS_Add_Mat_x_Mat false C A B false false 1 m = Returned EXIT_SUCCESS m')
  ∧ (∃ m', BLAS_Add_Mat_x_Mat true C A B false false 1 m = Returned EXIT_SUCCESS m')
  ∧ BLAS_Add_Mat_x_Mat true C A B true false 1 m = Returned EXIT_FAILURE m.
Proof.
  intros C A B m.
  assert (HA : ¬ degenerate A) by (intros [H|H]; discriminate H).
  assert (HB : ¬ degenerate B) by (intros [H|H]; discriminate H).
  assert (HC : ¬ degenerate C) by (intros [H|H]; discriminate H).
  assert (HinA : matrix_in (heap m) A) by (exists [1; 2]; split; [reflexivity | simpl; lia]).
  assert (HinB : matrix_in (heap m) B) by (exists [3; 4]; split; [reflexivity | simpl; lia]).
  assert (HinC : matrix_in (heap m) C) by (exists [5]; split; [reflexivity | simpl; lia]).
  split; [|split].
  - apply (gemm_succeeds_iff_conformable false C A B false false 1 m HA HB HC HinA HinB HinC).
    by vm_compute.
  - apply (gemm_succeeds_iff_conformable true C A B false false 1 m HA HB HC HinA HinB HinC).
    by vm_compute.
  - apply (gemm_succeeds_iff_conformable true C A B true false 1 m HA HB HC HinA HinB HinC);
      [reflexivity|].
    intros (H & _). discriminate H.
Defined.

Lemma gemv_test_ignores_transpose_witness :
  let A := TMatrix.mk 1 2 at_A in
  BLAS_Add_Mat_x_Vec false (TVector.mk 2 at_C) A (TVector.mk 1 at_V) true 1
    (holding [0; 0] [1; 2] [1])
  = Returned EXIT_FAILURE (holding [0; 0] [1; 2] [1])
  ∧ BLAS_Add_Mat_x_Vec true (TVector.mk 2 at_C) A (TVector.mk 1 at_V) true 1
      (holding [0; 0] [1; 2] [1])
    = Returned EXIT_FAILURE (holding [0; 0] [1; 2] [1])
  ∧ ¬ gemv_conformable true (TVector.mk 1 at_C) A (TVector.mk 2 at_V)
  ∧ BLAS_Add_Mat_x_Vec false (TVector.mk 1 at_C) A (TVector.mk 2 at_V) true 1
      (holding [0] [1; 2] [1; 1])
    ≠ Returned EXIT_FAILURE (holding [0] [1; 2] [1; 1])
  ∧ BLAS_Add_Mat_x_Vec true (TVector.mk 1 at_C) A (TVector.mk 2 at_V) true 1
      (holding [0] [1; 2] [1; 1])
    ≠ Returned EXIT_FAILURE (holding [0] [1; 2] [1; 1]).
Proof.
  intros A.
  assert (Hns : TMatrix.rows A ≠ TMatrix.cols A) by (simpl; lia).
  assert (Hfit : gemv_conformable true (TVector.mk 2 at_C) A (TVector.mk 1 at_V))
    by (split; reflexivity).
  assert (Hstored : gemv_conformable false (TVector.mk 1 at_C) A (TVector.mk 2 at_V))
    by (split; reflexivity).
  split; [|split; [|split; [|split]]].
  - by apply (gemv_test_ignores_transpose false _ A _ 1 _ Hns).
  - by apply (gemv_test_ignores_transpose true _ A _ 1 _ Hns).
  - by apply (gemv_test_ignores_transpose false _ A _ 1 (holding [0] [1; 2] [1; 1]) Hns).
  - by apply (gemv_test_ignores_transpose false _ A _ 1 (holding [0] [1; 2] [1; 1]) Hns).
  - by apply (gemv_test_ignores_transpose true _ A _ 1 (holding [0] [1; 2] [1; 1]) Hns).
Defined.

Lemma gemv_vendor_transposed_overruns_C_witness :
  BLAS_Add_Mat_x_Vec false (TVector.mk 1 at_C) (TMatrix.mk 1 2 at_A) (TVector.mk 2 at_V)
    true 1 (holding [0] [1; 2] [1; 1])
  = Undefined (OutOfBounds at_C 1).
Proof.
  apply (gemv_vendor_transposed_overruns_C (TVector.mk 1 at_C) (TMatrix.mk 1 2 at_A)
           (TVector.mk 2 at_V) 1 (holding [0] [1; 2] [1; 1]) [1; 2] [1; 1] [0]);
    first [reflexivity | simpl; lia].
Defined.

Lemma gemm_vendor_exits_witness :
  let m := holding [0; 0] [1; 2] [1; 1] in
  (let C := TMatrix.mk 0 2 at_C in
   let A := TMatrix.mk 0 2 at_A in
   let B := TMatrix.mk 2 2 at_B in
   BLAS_Add_Mat_x_Mat false C A B false false 1 m = Exited EXIT_FAILURE m
   ∧ BLAS_Add_Mat_x_Mat true C A B false false 1 m = Returned EXIT_FAILURE m)
  ∧ (let C := TMatrix.mk 1 2 at_C in
     let A := TMatrix.mk 1 2 at_A in
     let B := TMatrix.mk 1 2 at_B in
     BLAS_Add_Mat_x_Mat false C A B false false 1 m = Exited EXIT_FAILURE m
     ∧ BLAS_Add_Mat_x_Mat true C A B false false 1 m = Returned EXIT_FAILURE m).
Proof.
  intros m. split.
  - apply gemm_vendor_exits. left. left. reflexivity.
  - apply gemm_vendor_exits. right. right. right. intros [H _]. discriminate H.
Defined.

Lemma gemm_stays_in_bounds_witness :
  let C := TMatrix.mk 1 1 at_C in
  let A := TMatrix.mk 1 2 at_A in
  let B := TMatrix.mk 2 1 at_B in
  let m := holding [5] [1; 2] [3; 4] in
  ∃ h', BLAS_Add_Mat_x_Mat false C A B false false 1 m
        = Returned EXIT_SUCCESS (Machine h' ∅ [call_cblas_dgemm])
        ∧ touches_only at_C (λ t, (t < 1 * 1)%nat) (heap m) h'.
Proof.
  intros C A B m.
  apply (gemm_stays_in_bounds false C A B false false 1 m).
  - intros [H|H]; discriminate H.
  - intros [H|H]; discriminate H.
  - intros [H|H]; discriminate H.
  - repeat split.
  - exists [1; 2]. split; [reflexivity | simpl; lia].
  - exists [3; 4]. split; [reflexivity | simpl; lia].
  - exists [5]. split; [reflexivity | simpl; lia].
Defined.

Lemma gemv_carried_out_witness :
  let C := TVector.mk 2 at_C in
  let A := TMatrix.mk 2 3 at_A in
  let V := TVector.mk 3 at_V in
  let m := holding [0; 0] [1; 2; 3; 4; 5; 6] [1; 0; 1] in
  ∃ h', BLAS_Add_Mat_x_Vec false C A V false 1 m
        = Returned EXIT_SUCCESS (Machine h' ∅ [call_cblas_dgemv])
        ∧ touches_only at_C (λ t, (t < 2)%nat) (heap m) h'.
Proof.
  intros C A V m.
  apply (gemv_carried_out false C A V false 1 m).
  - split; reflexivity.
  - left. reflexivity.
  - right. simpl. lia.
  - exists [1; 2; 3; 4; 5; 6]. split; [reflexivity | simpl; lia].
  - exists [1; 0; 1]. split; [reflexivity | simpl; lia].
  - exists [0; 0]. split; [reflexivity | simpl; lia].
Defined.

Lemma gemv_changes_at_most_witness :
  changes_at_most at_C (holding [0; 0] [1; 2; 3; 4; 5; 6] [1; 0; 1])
    (BLAS_Add_Mat_x_Vec false (TVector.mk 2 at_C) (TMatrix.mk 2 3 at_A) (TVector.mk 3 at_V)
       false 1 (holding [0; 0] [1; 2; 3; 4; 5; 6] [1; 0; 1])).
Proof.
  apply (gemv_changes_at_most false (TVector.mk 2 at_C) (TMatrix.mk 2 3 at_A)
           (TVector.mk 3 at_V) false 1 (holding [0; 0] [1; 2; 3; 4; 5; 6] [1; 0; 1])).
  left. reflexivity.
Defined.


Lemma gemv_vendor_transposed_overreads_V_witness :
  BLAS_Add_Mat_x_Vec false (TVector.mk 2 at_C) (TMatrix.mk 2 1 at_A) (TVector.mk 1 at_V)
    true 1 (holding [0; 0] [1; 2] [1])
  = Undefined (OutOfBounds at_V 1).
Proof.
  apply (gemv_vendor_transposed_overreads_V (TVector.mk 2 at_C) (TMatrix.mk 2 1 at_A)
           (TVector.mk 1 at_V) 1 (holding [0; 0] [1; 2] [1]) [1; 2] [1]);
    first [reflexivity | simpl; lia].
Defined.


Lemma gemv_vendor_no_columns_illegal_lda_witness :
  BLAS_Add_Mat_x_Vec false (TVector.mk 2 at_C) (TMatrix.mk 2 0 at_A) (TVector.mk 0 at_V)
    false 1 (holding [0; 0] [] [])
  = Undefined (IllegalArgument 7).
Proof.
  apply (gemv_vendor_no_columns_illegal_lda (TVector.mk 2 at_C) (TMatrix.mk 2 0 at_A)
           (TVector.mk 0 at_V) false 1 (holding [0; 0] [] []));
    reflexivity.
Defined.


Lemma invert_vendor_runs_both_steps_witness :
  let K := scripted 0 0 false in
  let a := TMatrix.mk 1 1 at_A in
  let s := holding [] [2] [] in
  BLAS_InvertMatrix K false a s
  = Returned EXIT_SUCCESS
      (Machine (write_region (write_region (heap s) at_A [2]) at_A [2])
         ∅ [call_LAPACKE_dgetrf; call_LAPACKE_dgetri])
  ∧ ∃ s', BLAS_InvertMatrix K false a s = Returned EXIT_SUCCESS s'.
Proof.
  intros K a s.
  destruct (invert_vendor_runs_both_steps K a s [2] eq_refl eq_refl eq_refl) as [Hiff Hrun].
  split; [apply Hrun; reflexivity | apply Hiff; split; reflexivity].
Defined.

End Instances.
